(** * image-cache-react: the Network loader pool and the Img cache entry

    A shallow embedding of [src/network.ts] (class [Network]) and of the
    image entry (class [Img]), with the properties of the specification
    that concern them.

    Conventions.
    - JavaScript numbers that count things (sizes, byte counts, counters,
      the loader cap) are integers [Z]; [Map.size] is a [nat].
    - [Network.processes] is looked up by key only: a [gmap].
      [Network.imageQueue] is iterated in insertion order: an association
      list that follows the semantics of a JavaScript [Map].
    - Calls that leave the object (events emitted, methods of loaders,
      images, requests and of the browser) are recorded in a trace, in
      the order in which the code performs them.
    - The code is single threaded: a method runs to completion before the
      next event of a loader, of the browser or of a request is delivered.
      The listeners of the events that an object emits belong to other
      objects; they do not call back into the object while its method
      runs. *)

From Stdlib Require Import ZArith Lia.
From stdpp Require Import gmap strings list fin_maps.

Local Open Scope Z_scope.

(** ** Methods as state transformers that leave a trace *)

(** A method of an object with state [S] returns a value, the new state
    and the calls of kind [E] it made on other objects, oldest first. *)
Definition M (S E A : Type) : Type := S → A * S * list E.

#[global] Instance M_ret {S E} : MRet (M S E) := λ A a s, (a, s, []).
#[global] Instance M_bind {S E} : MBind (M S E) := λ A B f m s,
  let '(a, s1, t1) := m s in
  let '(b, s2, t2) := f a s1 in
  (b, s2, t1 ++ t2).

Definition get {S E} : M S E S := λ s, (s, s, []).
Definition modify {S E} (f : S → S) : M S E unit := λ s, (tt, f s, []).
Definition call {S E} (e : E) : M S E unit := λ s, (tt, s, [e]).

(** The state and the trace a method leaves. *)
Definition state_of {S E A} (r : A * S * list E) : S := r.1.2.
Definition trace_of {S E A} (r : A * S * list E) : list E := r.2.

Ltac run_M := unfold mbind, M_bind, mret, M_ret, get, modify, call.

(** ** network.ts *)

Module Network.

(** What [Network] reads of a [CacheImage]: [image.url], [image.loaded]. *)
Record CacheImage := { url : string; loaded : bool }.

(** [new Loader(image.url)] *)
Record Loader := { loader_url : string }.

(** The values of [processes]: [{ image, loader }]. *)
Record Process := { image : CacheImage; loader : Loader }.

(** The events a [Loader] fires ([loader.on(...)] in [processImage]). *)
Inductive LoaderEvent := Start | Progress | Abort | Error | Timeout | Load.

(** Calls made by the [Network] on other objects. *)
Inductive Effect :=
| CheckMemory (overflow : bool)  (* this.emit("check-memory", memory), with
                                    the value of memory.overflow afterwards *)
| Warn                            (* this.log.warn([...]) *)
| NewLoader (u : string)          (* new Loader(image.url) *)
| LoaderLoad (u : string)         (* loader.load() *)
| LoaderAbort (u : string)        (* process.loader.abort() *)
| LoaderRemoveAllListeners (u : string)
| ImageOnLoadStart (u : string)   (* image.onLoadStart() *)
| ImageOnLoaderProgress (u : string)
| ImageOnLoadError (u : string)   (* image.onLoadError() *)
| ImageAssignBlob (u : string)    (* image.assignBlob(loader.blob) *)
| EmitLoad (u : string).          (* this.emit("load", image) *)

#[global] Instance Effect_eq_dec : EqDecision Effect.
Proof. solve_decision. Defined.

Record Network := {
  processes : gmap string Process;
  imageQueue : list (string * CacheImage);
  maxProcesses : Z;
  loadedCount : Z;
  canceledCount : Z;
  erroredCount : Z;
}.

(** [new Network(loaders)]: [this.maxProcesses = loaders ?? this.maxProcesses] *)
Definition new (loaders : option Z) : Network :=
  {| processes := ∅; imageQueue := [];
     maxProcesses := default 16 loaders;
     loadedCount := 0; canceledCount := 0; erroredCount := 0 |}.

(** *** The queue: a JavaScript [Map] in insertion order *)

Definition queue_has (u : string) (q : list (string * CacheImage)) : bool :=
  bool_decide (u ∈ q.*1).

Fixpoint queue_get (u : string) (q : list (string * CacheImage)) : option CacheImage :=
  match q with
  | [] => None
  | (k, v) :: q' => if decide (k = u) then Some v else queue_get u q'
  end.

(** [Map.set]: the value of an existing key is replaced where it stands,
    a new key goes to the end. *)
Fixpoint queue_set (u : string) (i : CacheImage) (q : list (string * CacheImage))
  : list (string * CacheImage) :=
  match q with
  | [] => [(u, i)]
  | (k, v) :: q' => if decide (k = u) then (k, i) :: q' else (k, v) :: queue_set u i q'
  end.

(** [Map.delete]: the entry of the key, of which a [Map] has at most one. *)
Fixpoint queue_delete (u : string) (q : list (string * CacheImage))
  : list (string * CacheImage) :=
  match q with
  | [] => []
  | (k, v) :: q' => if decide (k = u) then q' else (k, v) :: queue_delete u q'
  end.

(** *** Field updates *)

Definition set_processes (f : gmap string Process → gmap string Process) (n : Network) :=
  {| processes := f (processes n); imageQueue := imageQueue n;
     maxProcesses := maxProcesses n; loadedCount := loadedCount n;
     canceledCount := canceledCount n; erroredCount := erroredCount n |}.

Definition set_imageQueue (f : list (string * CacheImage) → list (string * CacheImage))
    (n : Network) :=
  {| processes := processes n; imageQueue := f (imageQueue n);
     maxProcesses := maxProcesses n; loadedCount := loadedCount n;
     canceledCount := canceledCount n; erroredCount := erroredCount n |}.

Definition incr_loadedCount (n : Network) :=
  {| processes := processes n; imageQueue := imageQueue n;
     maxProcesses := maxProcesses n; loadedCount := loadedCount n + 1;
     canceledCount := canceledCount n; erroredCount := erroredCount n |}.

Definition incr_erroredCount (n : Network) :=
  {| processes := processes n; imageQueue := imageQueue n;
     maxProcesses := maxProcesses n; loadedCount := loadedCount n;
     canceledCount := canceledCount n; erroredCount := erroredCount n + 1 |}.

(** *** The methods *)

Abbreviation M := (M Network Effect).

(** [canLoad]: [memory = { overflow: false }] is handed to the listeners of
    "check-memory"; [reply] is the value of [memory.overflow] when [emit]
    returns ([false] when no listener sets it). *)
Definition canLoad (reply : bool) : M bool :=
  call (CheckMemory reply);; mret (negb reply).

(** [processImage], up to [loader.load()].  The listeners it installs are
    [on_event] below; they stay installed while the loader is in
    [processes]. *)
Definition processImage (i : CacheImage) : M unit :=
  call (NewLoader (url i));;
  modify (set_processes <[url i := {| image := i; loader := {| loader_url := url i |} |}]>);;
  call (LoaderLoad (url i)).

(** The loop of [update] over [this.imageQueue.entries()].  [replies] are
    the answers of the "check-memory" listeners to the successive
    questions of this cycle; a missing answer is [false]. *)
Fixpoint update_loop (entries : list (string * CacheImage)) (replies : list bool) : M unit :=
  match entries with
  | [] => mret tt
  | (u, i) :: rest =>
      n ← get;
      if Z.of_nat (size (processes n)) >=? maxProcesses n then mret tt
      else
        ok ← canLoad (hd false replies);
        if negb ok then call Warn
        else
          processImage i;;
          modify (set_imageQueue (queue_delete u));;
          update_loop rest (tl replies)
  end.

Definition update (replies : list bool) : M unit :=
  n ← get;
  if Z.of_nat (size (processes n)) >=? maxProcesses n then mret tt
  else update_loop (imageQueue n) replies.

Definition add (i : CacheImage) (replies : list bool) : M unit :=
  if loaded i then mret tt
  else
    n ← get;
    (if negb (queue_has (url i) (imageQueue n)) && negb (bool_decide (is_Some (processes n !! url i)))
     then modify (set_imageQueue (queue_set (url i) i))
     else mret tt);;
    update replies.

Definition remove (i : CacheImage) (replies : list bool) : M unit :=
  n ← get;
  (match queue_get (url i) (imageQueue n) with
   | Some _ => modify (set_imageQueue (queue_delete (url i)));; update replies
   | None => mret tt
   end);;
  n' ← get;
  match processes n' !! url i with
  | Some p => call (LoaderAbort (loader_url (loader p)))
  | None => mret tt
  end.

(** [onDone] of the loader of [i] *)
Definition onDone (i : CacheImage) (replies : list bool) : M unit :=
  call (LoaderRemoveAllListeners (url i));;
  modify (set_processes (delete (url i)));;
  update replies.

(** The listeners that [processImage] installs on the loader of [i]. *)
Definition handler (i : CacheImage) (ev : LoaderEvent) (replies : list bool) : M unit :=
  match ev with
  | Start => call (ImageOnLoadStart (url i))
  | Progress => call (ImageOnLoaderProgress (url i))
  | Abort => onDone i replies
  | Error =>
      modify incr_erroredCount;;
      call (ImageOnLoadError (url i));;
      onDone i replies
  | Timeout =>
      modify incr_erroredCount;;
      onDone i replies
  | Load =>
      modify incr_loadedCount;;
      onDone i replies;;
      call (ImageAssignBlob (url i));;
      call (EmitLoad (url i))
  end.

(** The loader dispatched for [u] fires [ev].  Only a loader that is in
    [processes] has listeners: [onDone] removes them together with the
    entry. *)
Definition on_event (u : string) (ev : LoaderEvent) (replies : list bool) : M unit :=
  n ← get;
  match processes n !! u with
  | Some p => handler (image p) ev replies
  | None => mret tt
  end.

(** *** Sequences of operations *)

Inductive Op :=
| Add (i : CacheImage) (replies : list bool)
| Remove (i : CacheImage) (replies : list bool)
| Fire (u : string) (ev : LoaderEvent) (replies : list bool).

Definition step (o : Op) : M unit :=
  match o with
  | Add i r => add i r
  | Remove i r => remove i r
  | Fire u ev r => on_event u ev r
  end.

Fixpoint run (ops : list Op) : M unit :=
  match ops with
  | [] => mret tt
  | o :: ops' => step o;; run ops'
  end.

Inductive reachable (loaders : option Z) : Network → Prop :=
| reachable_new : reachable loaders (new loaders)
| reachable_step o n : reachable loaders n → reachable loaders (state_of (step o n)).

(** *** Unfolding the methods *)

Ltac run_net := unfold canLoad, processImage; run_M.

(** The state after [processImage i] and the removal of [u] from the queue. *)
Definition dispatched (u : string) (i : CacheImage) (n : Network) : Network :=
  set_imageQueue (queue_delete u)
    (set_processes <[url i := {| image := i; loader := {| loader_url := url i |} |}]> n).

Lemma update_loop_cons u i rest replies n :
  update_loop ((u, i) :: rest) replies n =
    if Z.of_nat (size (processes n)) >=? maxProcesses n then (tt, n, [])
    else if hd false replies then (tt, n, [CheckMemory true; Warn])
    else
      let r := update_loop rest (tl replies) (dispatched u i n) in
      (tt, state_of r,
       CheckMemory false :: NewLoader (url i) :: LoaderLoad (url i) :: trace_of r).
Proof.
  simpl. run_net. destruct (_ >=? _); [done|].
  destruct (hd false replies); simpl; [done|].
  unfold dispatched, state_of, trace_of.
  by destruct (update_loop rest (tl replies) _) as [[[] ?] ?].
Qed.

Lemma update_eq replies n :
  update replies n =
    if Z.of_nat (size (processes n)) >=? maxProcesses n then (tt, n, [])
    else update_loop (imageQueue n) replies n.
Proof.
  unfold update. run_net. destruct (_ >=? _); [done|].
  by destruct (update_loop _ _ _) as [[[] ?] ?].
Qed.

(** *** What a dispatch cycle leaves alone *)

Record same_settings (n n' : Network) : Prop := {
  same_maxProcesses : maxProcesses n' = maxProcesses n;
  same_loadedCount : loadedCount n' = loadedCount n;
  same_canceledCount : canceledCount n' = canceledCount n;
  same_erroredCount : erroredCount n' = erroredCount n;
}.

Lemma same_settings_refl n : same_settings n n.
Proof. by split. Qed.

Lemma same_settings_trans n1 n2 n3 :
  same_settings n1 n2 → same_settings n2 n3 → same_settings n1 n3.
Proof. intros [] []; split; congruence. Qed.

Lemma update_loop_settings entries : ∀ replies n,
  same_settings n (state_of (update_loop entries replies n)).
Proof.
  induction entries as [|[u i] rest IH]; intros replies n.
  - apply same_settings_refl.
  - rewrite update_loop_cons.
    destruct (_ >=? _); [apply same_settings_refl|].
    destruct (hd false replies); [apply same_settings_refl|].
    cbn zeta. eapply same_settings_trans; [|apply IH]. by split.
Qed.

Lemma update_settings replies n : same_settings n (state_of (update replies n)).
Proof.
  rewrite update_eq. destruct (_ >=? _); [apply same_settings_refl|].
  apply update_loop_settings.
Qed.

(** *** The bound on the loaders in flight *)

(** A negative cap behaves as the cap 0: nothing is ever dispatched. *)
Definition within_cap (n : Network) : Prop :=
  Z.of_nat (size (processes n)) ≤ Z.max 0 (maxProcesses n).

Lemma update_loop_within_cap entries : ∀ replies n,
  within_cap n → within_cap (state_of (update_loop entries replies n)).
Proof.
  induction entries as [|[u i] rest IH]; intros replies n Hn; [done|].
  rewrite update_loop_cons.
  destruct (_ >=? _) eqn:Hfull; [done|].
  destruct (hd false replies); [done|].
  cbn zeta. apply IH. unfold within_cap, dispatched in *. simpl.
  rewrite Z.geb_leb in Hfull. apply Z.leb_gt in Hfull.
  rewrite map_size_insert. destruct (processes n !! url i); unfold id; lia.
Qed.

Lemma update_within_cap replies n :
  within_cap n → within_cap (state_of (update replies n)).
Proof.
  intros Hn. rewrite update_eq. destruct (_ >=? _); [done|].
  by apply update_loop_within_cap.
Qed.

Lemma delete_within_cap u n :
  within_cap n → within_cap (set_processes (delete u) n).
Proof.
  unfold within_cap. simpl. intros Hn.
  rewrite map_size_delete. destruct (processes n !! u); unfold id; lia.
Qed.

(** *** The methods in closed form *)

Lemma add_eq i replies n :
  add i replies n =
    if loaded i then (tt, n, [])
    else update replies
      (if negb (queue_has (url i) (imageQueue n))
          && negb (bool_decide (is_Some (processes n !! url i)))
       then set_imageQueue (queue_set (url i) i) n else n).
Proof.
  unfold add. destruct (loaded i); [done|]. run_net.
  destruct (_ && _); simpl; by destruct (update _ _) as [[[] ?] ?].
Qed.

Definition abort_call (u : string) (n : Network) : list Effect :=
  match processes n !! u with
  | Some p => [LoaderAbort (loader_url (loader p))]
  | None => []
  end.

Lemma remove_eq i replies n :
  remove i replies n =
    let r := match queue_get (url i) (imageQueue n) with
             | Some _ => update replies (set_imageQueue (queue_delete (url i)) n)
             | None => (tt, n, [])
             end in
    (tt, state_of r, trace_of r ++ abort_call (url i) (state_of r)).
Proof.
  unfold remove, abort_call, state_of, trace_of. run_net.
  destruct (queue_get _ _); simpl.
  - destruct (update _ _) as [[[] n'] t]; simpl. by destruct (processes n' !! url i).
  - by destruct (processes n !! url i).
Qed.

Lemma onDone_eq i replies n :
  onDone i replies n =
    let r := update replies (set_processes (delete (url i)) n) in
    (tt, state_of r, LoaderRemoveAllListeners (url i) :: trace_of r).
Proof.
  unfold onDone, state_of, trace_of. run_net.
  by destruct (update _ _) as [[[] ?] ?].
Qed.

Lemma handler_eq i ev replies n :
  handler i ev replies n =
    match ev with
    | Start => (tt, n, [ImageOnLoadStart (url i)])
    | Progress => (tt, n, [ImageOnLoaderProgress (url i)])
    | Abort => onDone i replies n
    | Error =>
        let r := onDone i replies (incr_erroredCount n) in
        (tt, state_of r, ImageOnLoadError (url i) :: trace_of r)
    | Timeout => onDone i replies (incr_erroredCount n)
    | Load =>
        let r := onDone i replies (incr_loadedCount n) in
        (tt, state_of r, trace_of r ++ [ImageAssignBlob (url i); EmitLoad (url i)])
    end.
Proof.
  destruct ev; try done; unfold handler, state_of, trace_of; run_net;
    by destruct (onDone _ _ _) as [[[] ?] ?].
Qed.

Lemma on_event_eq u ev replies n :
  on_event u ev replies n =
    match processes n !! u with
    | Some p => handler (image p) ev replies n
    | None => (tt, n, [])
    end.
Proof.
  unfold on_event. run_net. destruct (processes n !! u); [|done].
  by destruct (handler _ _ _ _) as [[[] ?] ?].
Qed.

Lemma handler_state i ev replies n :
  state_of (handler i ev replies n) =
    match ev with
    | Start | Progress => n
    | Abort => state_of (onDone i replies n)
    | Error | Timeout => state_of (onDone i replies (incr_erroredCount n))
    | Load => state_of (onDone i replies (incr_loadedCount n))
    end.
Proof. rewrite handler_eq. by destruct ev. Qed.

(** *** Invariance of the bound *)

Lemma onDone_within_cap i replies n :
  within_cap n → within_cap (state_of (onDone i replies n)).
Proof.
  intros Hn. rewrite onDone_eq. cbn zeta. unfold state_of at 1. simpl.
  by apply update_within_cap, delete_within_cap.
Qed.

Lemma step_within_cap o n : within_cap n → within_cap (state_of (step o n)).
Proof.
  intros Hn. destruct o as [i r|i r|u ev r]; simpl.
  - rewrite add_eq. destruct (loaded i); [done|].
    apply update_within_cap. by destruct (_ && _).
  - rewrite remove_eq. cbn zeta. unfold state_of at 1. simpl.
    destruct (queue_get _ _); [|done]. by apply update_within_cap.
  - rewrite on_event_eq. destruct (processes n !! u) as [p|]; [|done].
    rewrite handler_state. destruct ev; try done; by apply onDone_within_cap.
Qed.

Lemma onDone_settings i replies n :
  same_settings n (state_of (onDone i replies n)).
Proof.
  rewrite onDone_eq. cbn zeta. unfold state_of at 1. simpl.
  eapply same_settings_trans; [|apply update_settings]. by split.
Qed.

Lemma step_maxProcesses o n : maxProcesses (state_of (step o n)) = maxProcesses n.
Proof.
  destruct o as [i r|i r|u ev r]; simpl.
  - rewrite add_eq. destruct (loaded i); [done|].
    rewrite (same_maxProcesses _ _ (update_settings _ _)). by destruct (_ && _).
  - rewrite remove_eq. cbn zeta. unfold state_of at 1. simpl.
    destruct (queue_get _ _); [|done].
    by rewrite (same_maxProcesses _ _ (update_settings _ _)).
  - rewrite on_event_eq. destruct (processes n !! u) as [p|]; [|done].
    rewrite handler_state. destruct ev; try done;
      by rewrite (same_maxProcesses _ _ (onDone_settings _ _ _)).
Qed.

Lemma reachable_maxProcesses loaders n :
  reachable loaders n → maxProcesses n = default 16 loaders.
Proof. induction 1; [done|]. by rewrite step_maxProcesses. Qed.

Lemma reachable_within_cap loaders n : reachable loaders n → within_cap n.
Proof.
  induction 1; [|by apply step_within_cap].
  unfold within_cap. simpl. rewrite map_size_empty. lia.
Qed.

(** With a negative cap nothing is ever in flight. *)
Lemma negative_cap_idle loaders n :
  reachable loaders n → maxProcesses n < 0 → processes n = ∅.
Proof.
  intros Hr Hneg. apply reachable_within_cap in Hr. unfold within_cap in Hr.
  apply map_size_empty_inv. lia.
Qed.

(** With a cap that is not negative, the number of loaders in flight is
    at most [maxProcesses] in every state that a sequence of [add],
    [remove] and loader events reaches from [new Network(loaders)]. *)
Corollary processes_size_le_maxProcesses (loaders : option Z) (n : Network) :
  0 ≤ maxProcesses (new loaders) →
  reachable loaders n →
  Z.of_nat (size (processes n)) ≤ maxProcesses n.
Proof.
  intros Hcap Hr. pose proof (reachable_within_cap _ _ Hr) as Hn.
  unfold within_cap in Hn. rewrite (reachable_maxProcesses _ _ Hr) in *.
  simpl in Hcap. lia.
Qed.

(** C1, as the code has it.  In every state that a sequence of [add],
    [remove] and loader events reaches from [new Network(loaders)], for
    any integer [loaders], [maxProcesses] is the configured cap (16 when
    none is given) and the number of loaders in flight is at most the
    cap, or 0 where the cap is negative: the code does not reject a
    negative cap, it dispatches nothing. *)
Theorem processes_size_le_cap_or_zero (loaders : option Z) (n : Network) :
  reachable loaders n →
  maxProcesses n = default 16 loaders
  ∧ Z.of_nat (size (processes n)) ≤ Z.max 0 (maxProcesses n).
Proof.
  intros Hr. split.
  - by apply reachable_maxProcesses.
  - by apply (reachable_within_cap loaders).
Qed.

(** *** The trace of a dispatch cycle *)

(** What the dispatch of one queue entry adds to the trace. *)
Definition spawn (e : string * CacheImage) : list Effect :=
  [CheckMemory false; NewLoader (url e.2); LoaderLoad (url e.2)].

(** The calls a dispatch cycle can make. *)
Definition dispatch_effect (e : Effect) : bool :=
  match e with
  | CheckMemory _ | Warn | NewLoader _ | LoaderLoad _ => true
  | _ => false
  end.

Lemma update_loop_dispatch_only entries : ∀ replies n,
  Forall (λ e, dispatch_effect e = true) (trace_of (update_loop entries replies n)).
Proof.
  induction entries as [|[u i] rest IH]; intros replies n; [by constructor|].
  rewrite update_loop_cons.
  destruct (_ >=? _); [by constructor|].
  destruct (hd false replies); [by repeat constructor|].
  cbn zeta. unfold trace_of at 1. simpl. repeat (constructor; [done|]). apply IH.
Qed.

Lemma update_dispatch_only replies n :
  Forall (λ e, dispatch_effect e = true) (trace_of (update replies n)).
Proof.
  rewrite update_eq. destruct (_ >=? _); [by constructor|].
  apply update_loop_dispatch_only.
Qed.

Lemma onDone_trace i replies n :
  trace_of (onDone i replies n) =
    LoaderRemoveAllListeners (url i)
      :: trace_of (update replies (set_processes (delete (url i)) n)).
Proof. by rewrite onDone_eq. Qed.

Lemma onDone_counters_only i replies n e :
  e ∈ trace_of (onDone i replies n) →
  e = LoaderRemoveAllListeners (url i) ∨ dispatch_effect e = true.
Proof.
  rewrite onDone_trace. intros [->|He]%elem_of_cons; [by left|right].
  pose proof (update_dispatch_only replies (set_processes (delete (url i)) n)) as Hd.
  rewrite Forall_forall in Hd. by apply Hd.
Qed.

(** *** Terminal events *)

(** [error]: the counter of errors goes up by one and the image is told. *)
Lemma on_error n u p replies :
  processes n !! u = Some p →
  erroredCount (state_of (on_event u Error replies n)) = erroredCount n + 1
  ∧ loadedCount (state_of (on_event u Error replies n)) = loadedCount n
  ∧ canceledCount (state_of (on_event u Error replies n)) = canceledCount n
  ∧ ImageOnLoadError (url (image p)) ∈ trace_of (on_event u Error replies n).
Proof.
  intros Hp. rewrite on_event_eq, Hp. split_and!.
  - rewrite handler_state. by rewrite (same_erroredCount _ _ (onDone_settings _ _ _)).
  - rewrite handler_state. by rewrite (same_loadedCount _ _ (onDone_settings _ _ _)).
  - rewrite handler_state. by rewrite (same_canceledCount _ _ (onDone_settings _ _ _)).
  - rewrite handler_eq. cbn zeta. unfold trace_of at 1. simpl. apply elem_of_cons. by left.
Qed.

(** [abort]: no counter changes. *)
Lemma on_abort n u replies :
  erroredCount (state_of (on_event u Abort replies n)) = erroredCount n
  ∧ loadedCount (state_of (on_event u Abort replies n)) = loadedCount n
  ∧ canceledCount (state_of (on_event u Abort replies n)) = canceledCount n.
Proof.
  rewrite on_event_eq. destruct (processes n !! u) as [p|]; [|done].
  rewrite handler_state. by destruct (onDone_settings (image p) replies n).
Qed.

(** C2.  What the code does on [timeout]: the counter of errors goes up by
    one, and no [image.onLoadError()] is called, on the image of the loader
    or on any other: the image is not told of the failure. *)
Theorem on_timeout_image_not_notified (n : Network) (u : string) (p : Process)
    (replies : list bool) :
  processes n !! u = Some p →
  erroredCount (state_of (on_event u Timeout replies n)) = erroredCount n + 1
  ∧ ∀ v, ImageOnLoadError v ∉ trace_of (on_event u Timeout replies n).
Proof.
  intros Hp. rewrite on_event_eq, Hp. split.
  - rewrite handler_state. by rewrite (same_erroredCount _ _ (onDone_settings _ _ _)).
  - intros v Hv. rewrite handler_eq in Hv.
    by apply onDone_counters_only in Hv as [?|?].
Qed.

(** *** C4: the memory check in the dispatch cycle *)

Lemma update_loop_shape entries : ∀ replies n,
  imageQueue n = entries →
  ∃ (k : nat) (stop : list Effect),
    (k ≤ length entries)%nat
    ∧ (∀ j, (j < k)%nat → nth j replies false = false)
    ∧ trace_of (update_loop entries replies n) = flat_map spawn (take k entries) ++ stop
    ∧ imageQueue (state_of (update_loop entries replies n)) = drop k entries
    ∧ (stop = [] ∨ stop = [CheckMemory true; Warn] ∧ nth k replies false = true).
Proof.
  induction entries as [|[u i] rest IH]; intros replies n Hq.
  - exists 0%nat, []. split_and!; try done; [lia|by left].
  - rewrite update_loop_cons. destruct (_ >=? _).
    { exists 0%nat, []. split_and!; try done; [lia..|by left]. }
    destruct (hd false replies) eqn:Hhd.
    { exists 0%nat, [CheckMemory true; Warn]. split_and!; try done; [lia..|].
      right. split; [done|]. by destruct replies. }
    cbn zeta.
    destruct (IH (tl replies) (dispatched u i n)) as (k & stop & Hk & Hno & Ht & Hs & Hstop).
    { unfold dispatched. simpl. rewrite Hq. simpl. by rewrite decide_True. }
    exists (S k), stop. split_and!.
    + simpl. lia.
    + intros [|j] Hj; [by destruct replies|].
      specialize (Hno j ltac:(lia)). by destruct replies; [destruct j|].
    + unfold trace_of at 1. simpl. by rewrite Ht.
    + unfold state_of at 1. simpl. exact Hs.
    + destruct Hstop as [->|[-> Hr]]; [by left|right]. split; [done|].
      by destruct replies; [destruct k|].
Qed.

(** C4.  A dispatch cycle hands out the first [k] entries of the queue, for
    some [k]; each loader is started right after a "check-memory" question
    that was answered "no overflow"; the cycle ends either silently or,
    on the answer "overflow", with a warning and no loader started; the
    entries after the first [k] stay in the queue, in their order. *)
Theorem update_checks_memory_before_each_loader (replies : list bool) (n : Network) :
  ∃ (k : nat) (stop : list Effect),
    (k ≤ length (imageQueue n))%nat
    ∧ (∀ j, (j < k)%nat → nth j replies false = false)
    ∧ trace_of (update replies n) = flat_map spawn (take k (imageQueue n)) ++ stop
    ∧ imageQueue (state_of (update replies n)) = drop k (imageQueue n)
    ∧ (stop = [] ∨ stop = [CheckMemory true; Warn] ∧ nth k replies false = true).
Proof.
  rewrite update_eq. destruct (_ >=? _).
  - exists 0%nat, []. split_and!; try done; [lia..|by left].
  - by apply update_loop_shape.
Qed.

(** *** C3: one entry per URL *)

(** The URLs of the pending queue followed by those in flight. *)
Definition urls (n : Network) : list string :=
  (imageQueue n).*1 ++ (map_to_list (processes n)).*1.

(** Every queue entry stands under the URL of its image, every key of
    the queue occurs once, and no key of the queue is in flight. *)
Record queue_ok (n : Network) : Prop := {
  queue_keyed : Forall (λ e, e.1 = url e.2) (imageQueue n);
  queue_NoDup : NoDup (imageQueue n).*1;
  queue_not_in_flight : ∀ u, u ∈ (imageQueue n).*1 → processes n !! u = None;
}.

Lemma queue_ok_urls n : queue_ok n → NoDup (urls n).
Proof.
  intros [_ Hnd Hdis]. unfold urls. apply NoDup_app. split_and!; [done| |].
  - intros u Hu [[u' p] [-> Hp]]%list_elem_of_fmap. simpl in Hu.
    apply elem_of_map_to_list in Hp. rewrite (Hdis _ Hu) in Hp. done.
  - apply NoDup_fst_map_to_list.
Qed.

Lemma queue_has_spec u q : queue_has u q = true ↔ u ∈ q.*1.
Proof. unfold queue_has. by rewrite bool_decide_eq_true. Qed.

Lemma queue_set_new u i q : u ∉ q.*1 → queue_set u i q = q ++ [(u, i)].
Proof.
  induction q as [|[k v] q IH]; simpl; [done|]. intros Hu.
  apply not_elem_of_cons in Hu as [Hne Hu]. rewrite decide_False by done.
  by rewrite IH.
Qed.

Lemma queue_delete_keys u q v : v ∈ (queue_delete u q).*1 → v ∈ q.*1.
Proof.
  induction q as [|[k w] q IH]; simpl; [done|]. destruct (decide (k = u)).
  - intros. by apply elem_of_cons; right.
  - simpl. intros [->|Hv]%elem_of_cons; apply elem_of_cons; [by left|right; auto].
Qed.

Lemma queue_delete_NoDup u q : NoDup q.*1 → NoDup (queue_delete u q).*1.
Proof.
  induction q as [|[k w] q IH]; simpl; [done|].
  intros [Hk Hq]%NoDup_cons. destruct (decide (k = u)); [done|]. simpl.
  apply NoDup_cons. split; [|auto]. intros Hin. by apply Hk, (queue_delete_keys u).
Qed.

Lemma queue_delete_Forall (P : string * CacheImage → Prop) u q :
  Forall P q → Forall P (queue_delete u q).
Proof.
  induction 1 as [|[k w] q HP Hq IH]; simpl; [done|].
  destruct (decide (k = u)); [done|]. by constructor.
Qed.

Lemma queue_get_Some u q : is_Some (queue_get u q) ↔ u ∈ q.*1.
Proof.
  induction q as [|[k w] q IH]; simpl.
  - split; [by intros [? ?]|by intros ?%elem_of_nil].
  - destruct (decide (k = u)) as [->|Hne].
    + split; [intros; by apply elem_of_cons; left|by eauto].
    + rewrite IH. split; [intros; by apply elem_of_cons; right|].
      by intros [?|?]%elem_of_cons.
Qed.

Lemma enqueue_ok i n :
  queue_ok n →
  queue_ok (if negb (queue_has (url i) (imageQueue n))
               && negb (bool_decide (is_Some (processes n !! url i)))
            then set_imageQueue (queue_set (url i) i) n else n).
Proof.
  intros Hn. destruct (_ && _) eqn:Hc; [|done].
  apply andb_true_iff in Hc as [Hq Hp].
  apply negb_true_iff, not_true_iff_false in Hq. rewrite queue_has_spec in Hq.
  apply negb_true_iff, bool_decide_eq_false in Hp.
  rewrite <-eq_None_not_Some in Hp.
  destruct Hn as [Hk Hnd Hdis]. split; simpl; rewrite queue_set_new by done.
  - apply Forall_app. split; [done|]. by constructor.
  - rewrite fmap_app. apply NoDup_app. split_and!; [done| |apply NoDup_singleton].
    intros v Hv ->%list_elem_of_singleton. done.
  - rewrite fmap_app. intros v [Hv| ->%list_elem_of_singleton]%elem_of_app; auto.
Qed.

Lemma dequeue_ok u n : queue_ok n → queue_ok (set_imageQueue (queue_delete u) n).
Proof.
  intros [Hk Hnd Hdis]. split; simpl.
  - by apply queue_delete_Forall.
  - by apply queue_delete_NoDup.
  - intros v Hv. by apply Hdis, (queue_delete_keys u).
Qed.

Lemma done_ok u n : queue_ok n → queue_ok (set_processes (delete u) n).
Proof.
  intros [Hk Hnd Hdis]. split; simpl; [done..|].
  intros v Hv. apply lookup_delete_None. right. by apply Hdis.
Qed.

Lemma update_loop_ok entries : ∀ replies n,
  imageQueue n = entries → queue_ok n →
  queue_ok (state_of (update_loop entries replies n)).
Proof.
  induction entries as [|[u i] rest IH]; intros replies n Hq Hn; [done|].
  rewrite update_loop_cons.
  destruct (_ >=? _); [done|]. destruct (hd false replies); [done|].
  cbn zeta. unfold state_of at 1. simpl.
  assert (imageQueue (dispatched u i n) = rest) as Hrest.
  { unfold dispatched. simpl. rewrite Hq. simpl. by rewrite decide_True. }
  apply IH; [done|].
  destruct Hn as [Hk Hnd Hdis]. rewrite Hq in Hk, Hnd, Hdis.
  apply Forall_cons in Hk as [Hu Hk]. simpl in Hu, Hnd.
  apply NoDup_cons in Hnd as [Hfresh Hnd].
  split; rewrite Hrest; [done..|].
  intros v Hv. unfold dispatched. simpl. apply lookup_insert_None. split.
  - apply Hdis. simpl. by apply elem_of_cons; right.
  - intros Heq. apply Hfresh. by rewrite Hu, Heq.
Qed.

Lemma update_ok replies n : queue_ok n → queue_ok (state_of (update replies n)).
Proof.
  intros Hn. rewrite update_eq. destruct (_ >=? _); [done|].
  by apply update_loop_ok.
Qed.

Lemma counters_ok (f : Network → Network) n :
  imageQueue (f n) = imageQueue n → processes (f n) = processes n →
  queue_ok n → queue_ok (f n).
Proof. intros Hq Hp [? ? ?]. split; rewrite ?Hq, ?Hp; done. Qed.

Lemma onDone_ok i replies n : queue_ok n → queue_ok (state_of (onDone i replies n)).
Proof.
  intros Hn. rewrite onDone_eq. cbn zeta. unfold state_of at 1. simpl.
  by apply update_ok, done_ok.
Qed.

Lemma step_ok o n : queue_ok n → queue_ok (state_of (step o n)).
Proof.
  intros Hn. destruct o as [i r|i r|u ev r]; simpl.
  - rewrite add_eq. destruct (loaded i); [done|]. by apply update_ok, enqueue_ok.
  - rewrite remove_eq. cbn zeta. unfold state_of at 1. simpl.
    destruct (queue_get _ _); [|done]. by apply update_ok, dequeue_ok.
  - rewrite on_event_eq. destruct (processes n !! u) as [p|]; [|done].
    rewrite handler_state. destruct ev; try done; apply onDone_ok; try done;
      by apply counters_ok.
Qed.

Lemma reachable_ok loaders n : reachable loaders n → queue_ok n.
Proof.
  induction 1; [|by apply step_ok]. split; simpl; [constructor..|done].
Qed.

(** C3.  [add] of a loaded image changes nothing and makes no call.  [add]
    of another image appends it to the queue unless its URL is already in
    the queue or in flight, and then runs a dispatch cycle; afterwards,
    as before, no URL occurs twice across the queue and the loaders in
    flight. *)
Theorem add_enqueues_once (loaders : option Z) (n : Network) (i : CacheImage)
    (replies : list bool) :
  reachable loaders n →
  (loaded i = true → add i replies n = (tt, n, []))
  ∧ (loaded i = false →
     add i replies n =
       update replies
         (if bool_decide (url i ∈ (imageQueue n).*1 ∨ is_Some (processes n !! url i))
          then n
          else set_imageQueue (λ q, q ++ [(url i, i)]) n))
  ∧ NoDup (urls (state_of (add i replies n))).
Proof.
  intros Hr. split_and!.
  - intros Hl. by rewrite add_eq, Hl.
  - intros Hl. rewrite add_eq, Hl. f_equal.
    destruct (decide (url i ∈ (imageQueue n).*1)) as [Hin|Hin].
    + rewrite (bool_decide_eq_true_2 (_ ∨ _)) by (by left).
      apply queue_has_spec in Hin. by rewrite Hin.
    + assert (queue_has (url i) (imageQueue n) = false) as Hq.
      { apply not_true_is_false. by rewrite queue_has_spec. }
      rewrite Hq. simpl. destruct (decide (is_Some (processes n !! url i))) as [Hp|Hp].
      * rewrite (bool_decide_eq_true_2 _ Hp). simpl.
        by rewrite (bool_decide_eq_true_2 (_ ∨ _)) by (by right).
      * rewrite (bool_decide_eq_false_2 _ Hp). simpl.
        rewrite (bool_decide_eq_false_2 (_ ∨ _)) by (by intros [?|?]).
        unfold set_imageQueue. by rewrite queue_set_new.
  - apply queue_ok_urls. change (add i replies n) with (step (Add i replies) n).
    by apply step_ok, (reachable_ok loaders).
Qed.

(** *** C9: the order of the calls on [load] *)

(** C9.  When the loader dispatched for [u] fires [load], the network
    counts it, takes the loader out of [processes] and runs a dispatch
    cycle; only then does it call [image.assignBlob] and emit its own
    "load".  Both calls see the state the cycle left, with the loaders it
    started. *)
Theorem on_load_dispatches_before_delivery (n : Network) (u : string) (p : Process)
    (replies : list bool) :
  processes n !! u = Some p →
  let cycle :=
    update replies (set_processes (delete (url (image p))) (incr_loadedCount n)) in
  on_event u Load replies n =
    (tt, state_of cycle,
     LoaderRemoveAllListeners (url (image p)) :: trace_of cycle
       ++ [ImageAssignBlob (url (image p)); EmitLoad (url (image p))]).
Proof.
  intros Hp cycle. rewrite on_event_eq, Hp, handler_eq. cbn zeta.
  by rewrite onDone_eq.
Qed.

(** *** Examples *)

(** An image that is not loaded yet. *)
Definition pending (u : string) : CacheImage := {| url := u; loaded := false |}.

(** One loader allowed, "a" in flight and "b" waiting. *)
Definition a_in_flight_b_queued : Network :=
  state_of (run [Add (pending "a") []; Add (pending "b") []] (new (Some 1))).

Lemma a_in_flight_b_queued_reachable : reachable (Some 1) a_in_flight_b_queued.
Proof.
  change a_in_flight_b_queued with
    (state_of (step (Add (pending "b") [])
       (state_of (step (Add (pending "a") []) (new (Some 1)))))).
  apply reachable_step, reachable_step, reachable_new.
Qed.

(** [new Network(-1)]: nothing is in flight, and 0 is more than the cap. *)
Lemma negative_cap_below_size :
  reachable (Some (-1)) (new (Some (-1)))
  ∧ ¬ (Z.of_nat (size (processes (new (Some (-1))))) ≤ maxProcesses (new (Some (-1)))).
Proof.
  split; [apply reachable_new|]. simpl. rewrite map_size_empty. lia.
Qed.

Lemma processes_size_le_cap_or_zero_witness :
  maxProcesses a_in_flight_b_queued = 1
  ∧ Z.of_nat (size (processes a_in_flight_b_queued))
    ≤ Z.max 0 (maxProcesses a_in_flight_b_queued).
Proof.
  apply (processes_size_le_cap_or_zero (Some 1) a_in_flight_b_queued).
  apply a_in_flight_b_queued_reachable.
Defined.

Lemma processes_size_le_maxProcesses_witness :
  0 ≤ maxProcesses (new (Some 1))
  ∧ Z.of_nat (size (processes a_in_flight_b_queued)) ≤ maxProcesses a_in_flight_b_queued.
Proof.
  split; [simpl; lia|].
  apply (processes_size_le_maxProcesses (Some 1)); [simpl; lia|].
  apply a_in_flight_b_queued_reachable.
Defined.

Lemma on_timeout_image_not_notified_witness :
  erroredCount (state_of (on_event "a" Timeout [] a_in_flight_b_queued)) = 1
  ∧ ∀ v, ImageOnLoadError v ∉ trace_of (on_event "a" Timeout [] a_in_flight_b_queued).
Proof.
  apply (on_timeout_image_not_notified a_in_flight_b_queued "a"
           {| image := pending "a"; loader := {| loader_url := "a" |} |} []).
  vm_compute. reflexivity.
Defined.

Lemma add_enqueues_once_witness :
  add (pending "c") [] a_in_flight_b_queued =
    update [] (set_imageQueue (λ q, q ++ [("c", pending "c")]) a_in_flight_b_queued)
  ∧ NoDup (urls (state_of (add (pending "c") [] a_in_flight_b_queued))).
Proof.
  destruct (add_enqueues_once (Some 1) a_in_flight_b_queued (pending "c") []
              a_in_flight_b_queued_reachable) as (_ & Hadd & Hnd).
  split; [exact (Hadd eq_refl)|exact Hnd].
Defined.

Lemma update_checks_memory_before_each_loader_witness :
  ∃ (k : nat) (stop : list Effect),
    (k ≤ 2)%nat
    ∧ (∀ j, (j < k)%nat → nth j [false; true] false = false)
    ∧ trace_of (update [false; true]
                 (set_imageQueue (λ _, [("a", pending "a"); ("b", pending "b")]) (new None)))
      = flat_map spawn (take k [("a", pending "a"); ("b", pending "b")]) ++ stop
    ∧ imageQueue (state_of (update [false; true]
                 (set_imageQueue (λ _, [("a", pending "a"); ("b", pending "b")]) (new None))))
      = drop k [("a", pending "a"); ("b", pending "b")]
    ∧ (stop = [] ∨ stop = [CheckMemory true; Warn] ∧ nth k [false; true] false = true).
Proof.
  apply (update_checks_memory_before_each_loader [false; true]
           (set_imageQueue (λ _, [("a", pending "a"); ("b", pending "b")]) (new None))).
Defined.

(** The listener of the network's "load" for "a" runs when "b" is
    already being fetched. *)
Lemma on_load_dispatches_before_delivery_witness :
  trace_of (on_event "a" Load [] a_in_flight_b_queued) =
    [LoaderRemoveAllListeners "a"; CheckMemory false; NewLoader "b"; LoaderLoad "b";
     ImageAssignBlob "a"; EmitLoad "a"]
  ∧ is_Some (processes (state_of (on_event "a" Load [] a_in_flight_b_queued)) !! "b").
Proof.
  rewrite (on_load_dispatches_before_delivery a_in_flight_b_queued "a"
             {| image := pending "a"; loader := {| loader_url := "a" |} |} []);
    [|vm_compute; reflexivity].
  split; [vm_compute; reflexivity|]. vm_compute. eauto.
Defined.

(** *** The entries of [processes] *)

(** Every entry of [processes] stands under the URL of its image, and its
    loader was made for that URL. *)
Definition processes_keyed (n : Network) : Prop :=
  ∀ u p, processes n !! u = Some p → url (image p) = u ∧ loader_url (loader p) = u.

Lemma update_loop_keyed entries : ∀ replies n,
  processes_keyed n → processes_keyed (state_of (update_loop entries replies n)).
Proof.
  induction entries as [|[u i] rest IH]; intros replies n Hn; [done|].
  rewrite update_loop_cons.
  destruct (_ >=? _); [done|]. destruct (hd false replies); [done|].
  cbn zeta. apply IH. intros v p. unfold dispatched. simpl.
  rewrite lookup_insert. case_decide as Hv; [|apply Hn].
  intros [= <-]. by subst.
Qed.

Lemma update_keyed replies n :
  processes_keyed n → processes_keyed (state_of (update replies n)).
Proof.
  intros Hn. rewrite update_eq. destruct (_ >=? _); [done|].
  by apply update_loop_keyed.
Qed.

Lemma onDone_keyed i replies n :
  processes_keyed n → processes_keyed (state_of (onDone i replies n)).
Proof.
  intros Hn. rewrite onDone_eq. cbn zeta. apply update_keyed.
  intros v p Hp. simpl in Hp. apply lookup_delete_Some in Hp as [_ Hp]. by apply Hn.
Qed.

Lemma step_keyed o n : processes_keyed n → processes_keyed (state_of (step o n)).
Proof.
  intros Hn. destruct o as [i r|i r|u ev r]; simpl.
  - rewrite add_eq. destruct (loaded i); [done|].
    apply update_keyed. by destruct (_ && _).
  - rewrite remove_eq. cbn zeta. unfold state_of at 1. simpl.
    destruct (queue_get _ _); [|done]. by apply update_keyed.
  - rewrite on_event_eq. destruct (processes n !! u) as [p|]; [|done].
    rewrite handler_state. destruct ev; try done; by apply onDone_keyed.
Qed.

Lemma reachable_keyed loaders n : reachable loaders n → processes_keyed n.
Proof.
  induction 1; [|by apply step_keyed]. intros u p. simpl. by rewrite lookup_empty.
Qed.

(** An entry of [processes] is filed under the URL of its image, with a
    loader made for that URL, in every reachable state. *)
Theorem reachable_processes_keyed (loaders : option Z) (n : Network) (u : string)
    (p : Process) :
  reachable loaders n →
  processes n !! u = Some p →
  url (image p) = u ∧ loader_url (loader p) = u.
Proof. intros Hr. by apply (reachable_keyed loaders). Qed.

(** *** The URLs the network holds *)

(** The URLs that are queued or in flight. *)
Definition tracked (n : Network) : gset string :=
  list_to_set (imageQueue n).*1 ∪ dom (processes n).

Lemma dispatched_ok u i rest n :
  imageQueue n = (u, i) :: rest → queue_ok n →
  imageQueue (dispatched u i n) = rest ∧ u = url i ∧ (u ∉ rest.*1)
  ∧ queue_ok (dispatched u i n).
Proof.
  intros Hq [Hk Hnd Hdis]. rewrite Hq in Hk, Hnd, Hdis.
  apply Forall_cons in Hk as [Hu Hk]. simpl in Hu, Hnd.
  apply NoDup_cons in Hnd as [Hfresh Hnd].
  assert (imageQueue (dispatched u i n) = rest) as Hrest.
  { unfold dispatched. simpl. rewrite Hq. simpl. by rewrite decide_True. }
  split_and!; [done..|]. split; rewrite Hrest; [done..|].
  intros v Hv. unfold dispatched. simpl. apply lookup_insert_None. split.
  - apply Hdis. simpl. by apply elem_of_cons; right.
  - intros Heq. apply Hfresh. by rewrite Hu, Heq.
Qed.

Lemma update_loop_tracked entries : ∀ replies n,
  imageQueue n = entries → queue_ok n →
  tracked (state_of (update_loop entries replies n)) = tracked n.
Proof.
  induction entries as [|[u i] rest IH]; intros replies n Hq Hn; [done|].
  rewrite update_loop_cons.
  destruct (_ >=? _); [done|]. destruct (hd false replies); [done|].
  cbn zeta. unfold state_of at 1. simpl.
  destruct (dispatched_ok u i rest n Hq Hn) as (Hrest & Hu & _ & Hok).
  rewrite IH by done. unfold tracked. rewrite Hrest, Hq. unfold dispatched. simpl.
  rewrite dom_insert_L, <-Hu. simpl.
  rewrite (assoc_L (∪)). f_equal. apply (comm_L (∪)).
Qed.

Lemma update_tracked_ok replies n :
  queue_ok n → tracked (state_of (update replies n)) = tracked n.
Proof.
  intros Hn. rewrite update_eq. destruct (_ >=? _); [done|].
  by apply update_loop_tracked.
Qed.

(** A dispatch cycle moves URLs from the queue to the loaders in flight:
    the URLs that are queued or in flight are the same before and after. *)
Theorem update_keeps_tracked (loaders : option Z) (replies : list bool) (n : Network) :
  reachable loaders n →
  tracked (state_of (update replies n)) = tracked n.
Proof. intros Hr%reachable_ok. by apply update_tracked_ok. Qed.


Lemma tracked_elem n v :
  v ∈ tracked n ↔ v ∈ (imageQueue n).*1 ∨ is_Some (processes n !! v).
Proof. unfold tracked. by rewrite elem_of_union, elem_of_list_to_set, elem_of_dom. Qed.

Lemma enqueue_tracked i n :
  tracked (if negb (queue_has (url i) (imageQueue n))
              && negb (bool_decide (is_Some (processes n !! url i)))
           then set_imageQueue (queue_set (url i) i) n else n)
  = {[url i]} ∪ tracked n.
Proof.
  apply set_eq. intros v. rewrite elem_of_union, elem_of_singleton.
  destruct (_ && _) eqn:Hc.
  - apply andb_true_iff in Hc as [Hq _].
    apply negb_true_iff, not_true_iff_false in Hq. rewrite queue_has_spec in Hq.
    rewrite !tracked_elem. simpl. rewrite queue_set_new, fmap_app, elem_of_app by done.
    simpl. rewrite list_elem_of_singleton. tauto.
  - split; [by right|]. intros [->|Hv]; [|done]. apply tracked_elem.
    apply andb_false_iff in Hc as [Hq|Hp].
    + left. apply queue_has_spec. by apply negb_false_iff in Hq.
    + right. apply negb_false_iff in Hp. by apply bool_decide_eq_true in Hp.
Qed.

(** [add] of an image that is not loaded leaves its URL queued or in
    flight, next to the URLs that were. *)
Theorem add_tracks_url (loaders : option Z) (n : Network) (i : CacheImage)
    (replies : list bool) :
  reachable loaders n →
  loaded i = false →
  tracked (state_of (add i replies n)) = {[url i]} ∪ tracked n.
Proof.
  intros Hr%reachable_ok Hl. rewrite add_eq, Hl.
  rewrite update_tracked_ok by (by apply enqueue_ok). apply enqueue_tracked.
Qed.

Lemma onDone_tracked i replies n :
  queue_ok n → is_Some (processes n !! url i) →
  tracked (state_of (onDone i replies n)) = tracked n ∖ {[url i]}.
Proof.
  intros Hn Hp. rewrite onDone_eq. cbn zeta. unfold state_of at 1. simpl.
  rewrite update_tracked_ok by (by apply done_ok).
  apply set_eq. intros v.
  rewrite elem_of_difference, elem_of_singleton, !tracked_elem. simpl.
  rewrite <-!elem_of_dom, dom_delete_L, elem_of_difference, elem_of_singleton.
  split; [|tauto]. intros [Hv|[Hv Hne]]; [|tauto]. split; [by left|].
  intros ->. destruct Hp as [p Hp].
  by rewrite (queue_not_in_flight _ Hn _ Hv) in Hp.
Qed.

(** The events after which a loader is done. *)
Definition terminal (ev : LoaderEvent) : bool :=
  match ev with
  | Abort | Error | Timeout | Load => true
  | Start | Progress => false
  end.

(** After [abort], [error], [timeout] or [load] of the loader of [u], the
    URL [u] is neither in flight nor queued, and the other URLs are
    queued or in flight as before. *)
Theorem terminal_event_releases_url (loaders : option Z) (n : Network) (u : string)
    (p : Process) (ev : LoaderEvent) (replies : list bool) :
  reachable loaders n →
  processes n !! u = Some p →
  terminal ev = true →
  processes (state_of (on_event u ev replies n)) !! u = None
  ∧ tracked (state_of (on_event u ev replies n)) = tracked n ∖ {[u]}.
Proof.
  intros Hr Hp Hev.
  destruct (reachable_keyed _ _ Hr u p Hp) as [Hu _].
  apply reachable_ok in Hr.
  assert (tracked (state_of (on_event u ev replies n)) = tracked n ∖ {[u]}) as Ht.
  { rewrite on_event_eq, Hp, handler_state.
    destruct ev; try done; rewrite onDone_tracked; rewrite ?Hu; try done;
      try (by apply counters_ok); simpl; by rewrite Hp. }
  split; [|done]. apply eq_None_not_Some. intros Hs.
  assert (u ∈ tracked (state_of (on_event u ev replies n))) as Hin
    by (apply tracked_elem; by right).
  rewrite Ht in Hin. apply elem_of_difference in Hin as [_ Hne].
  by apply Hne, elem_of_singleton.
Qed.

Lemma queue_delete_keys_iff u q v :
  NoDup q.*1 → v ∈ (queue_delete u q).*1 ↔ v ∈ q.*1 ∧ v ≠ u.
Proof.
  induction q as [|[k w] q IH]; simpl.
  - intros _. rewrite elem_of_nil. tauto.
  - intros [Hk Hq]%NoDup_cons. destruct (decide (k = u)) as [->|Hne]; simpl.
    + rewrite elem_of_cons. split; [|by intros [[->|?] ?]].
      intros Hv. split; [by right|]. by intros ->.
    + rewrite !elem_of_cons, IH by done. split; [|tauto].
      intros [->|[? ?]]; [split; [by left|done]|split; [by right|done]].
Qed.

Lemma update_no_abort replies n v : LoaderAbort v ∉ trace_of (update replies n).
Proof.
  intros Hv. pose proof (update_dispatch_only replies n) as Hd.
  rewrite Forall_forall in Hd. by apply Hd in Hv.
Qed.

(** [remove] of a queued image takes its URL out of the queue and aborts
    nothing; [remove] of an image in flight only calls [abort] on its
    loader, which stays in [processes] until its event arrives; [remove]
    of any other image does nothing. *)
Theorem remove_cases (loaders : option Z) (n : Network) (i : CacheImage)
    (replies : list bool) :
  reachable loaders n →
  (url i ∈ (imageQueue n).*1 →
     tracked (state_of (remove i replies n)) = tracked n ∖ {[url i]}
     ∧ ∀ v, LoaderAbort v ∉ trace_of (remove i replies n))
  ∧ (is_Some (processes n !! url i) →
     remove i replies n = (tt, n, [LoaderAbort (url i)]))
  ∧ (url i ∉ tracked n → remove i replies n = (tt, n, [])).
Proof.
  intros Hr. pose proof (reachable_keyed _ _ Hr) as Hkey.
  apply reachable_ok in Hr as Hok. rewrite remove_eq. split_and!.
  - intros Hq. apply queue_get_Some in Hq as Hg. destruct Hg as [w ->].
    cbn zeta. unfold state_of at 1 4. simpl.
    assert (tracked (state_of (update replies
              (set_imageQueue (queue_delete (url i)) n))) = tracked n ∖ {[url i]}) as Ht.
    { rewrite update_tracked_ok by (by apply dequeue_ok).
      apply set_eq. intros v.
      rewrite elem_of_difference, elem_of_singleton, !tracked_elem. simpl.
      rewrite queue_delete_keys_iff by apply Hok. split; [|tauto].
      intros [[? ?]|Hv]; [tauto|]. split; [by right|]. intros ->.
      rewrite (queue_not_in_flight _ Hok _ Hq) in Hv. by destruct Hv. }
    split; [done|]. intros v Hv. unfold trace_of at 1 in Hv. simpl in Hv.
    apply elem_of_app in Hv as [Hv|Hv]; [by apply update_no_abort in Hv|].
    unfold abort_call in Hv.
    destruct (processes _ !! url i) eqn:Hp; [|by apply elem_of_nil in Hv].
    assert (url i ∈ tracked (state_of (update replies
              (set_imageQueue (queue_delete (url i)) n)))) as Hin
      by (apply tracked_elem; right; by rewrite Hp).
    rewrite Ht in Hin. apply elem_of_difference in Hin as [_ Hne].
    by apply Hne, elem_of_singleton.
  - intros [p Hp].
    destruct (queue_get (url i) (imageQueue n)) eqn:Hg.
    { assert (url i ∈ (imageQueue n).*1) as Hq by (apply queue_get_Some; by rewrite Hg).
      rewrite (queue_not_in_flight _ Hok _ Hq) in Hp. done. }
    cbn zeta. unfold state_of, trace_of, abort_call. cbn [fst snd app]. rewrite Hp.
    by destruct (Hkey _ _ Hp) as [_ ->].
  - intros Hnot. rewrite tracked_elem in Hnot.
    destruct (queue_get (url i) (imageQueue n)) eqn:Hg.
    { exfalso. apply Hnot. left. apply queue_get_Some. by rewrite Hg. }
    cbn zeta. unfold state_of, trace_of, abort_call. cbn [fst snd app].
    destruct (processes n !! url i) eqn:Hp; [|done].
    exfalso. apply Hnot. right. eauto.
Qed.


(** *** A dispatch cycle leaves no idle loader *)

Lemma update_loop_busy entries : ∀ replies n,
  imageQueue n = entries →
  (∀ j, nth j replies false = false) →
  imageQueue (state_of (update_loop entries replies n)) = []
  ∨ maxProcesses (state_of (update_loop entries replies n))
    ≤ Z.of_nat (size (processes (state_of (update_loop entries replies n)))).
Proof.
  induction entries as [|[u i] rest IH]; intros replies n Hq Hno; [by left|].
  rewrite update_loop_cons. destruct (_ >=? _) eqn:Hfull.
  { right. rewrite Z.geb_leb in Hfull. by apply Z.leb_le in Hfull. }
  destruct (hd false replies) eqn:Hhd.
  { specialize (Hno 0%nat). destruct replies; simpl in *; congruence. }
  cbn zeta. unfold state_of at 1 2 3. simpl. apply IH.
  - unfold dispatched. simpl. rewrite Hq. simpl. by rewrite decide_True.
  - intros j. specialize (Hno (S j)). by destruct replies; [destruct j|].
Qed.

(** When no "check-memory" listener reports overflow, a dispatch cycle
    ends with an empty queue or with [maxProcesses] loaders, or more, in
    flight. *)
Theorem update_fills_the_pool (replies : list bool) (n : Network) :
  (∀ j, nth j replies false = false) →
  imageQueue (state_of (update replies n)) = []
  ∨ maxProcesses (state_of (update replies n))
    ≤ Z.of_nat (size (processes (state_of (update replies n)))).
Proof.
  intros Hno. rewrite update_eq. destruct (_ >=? _) eqn:Hfull.
  - right. rewrite Z.geb_leb in Hfull. by apply Z.leb_le in Hfull.
  - by apply update_loop_busy.
Qed.

(** *** [add] and [remove] with a full pool *)

Lemma update_full replies n :
  maxProcesses n ≤ Z.of_nat (size (processes n)) → update replies n = (tt, n, []).
Proof.
  intros Hfull. rewrite update_eq.
  destruct (_ >=? _) eqn:Hc; [done|].
  rewrite Z.geb_leb in Hc. apply Z.leb_gt in Hc. lia.
Qed.

Lemma queue_delete_snoc u i q : u ∉ q.*1 → queue_delete u (q ++ [(u, i)]) = q.
Proof.
  induction q as [|[k v] q IH]; simpl; [by rewrite decide_True|].
  intros [Hne Hu]%not_elem_of_cons. rewrite decide_False by done. by rewrite IH.
Qed.

Lemma queue_get_snoc u i q : u ∉ q.*1 → queue_get u (q ++ [(u, i)]) = Some i.
Proof.
  induction q as [|[k v] q IH]; simpl; [by rewrite decide_True|].
  intros [Hne Hu]%not_elem_of_cons. rewrite decide_False by done. by apply IH.
Qed.

(** While the pool is full, [add] of an image that is not loaded and whose
    URL is new, followed by [remove] of that image, gives back the state,
    and neither of them makes a call. *)
Theorem add_remove_full_pool (n : Network) (i : CacheImage) (r1 r2 : list bool) :
  loaded i = false →
  url i ∉ tracked n →
  maxProcesses n ≤ Z.of_nat (size (processes n)) →
  add i r1 n = (tt, set_imageQueue (λ q, q ++ [(url i, i)]) n, [])
  ∧ remove i r2 (set_imageQueue (λ q, q ++ [(url i, i)]) n) = (tt, n, []).
Proof.
  intros Hl Hnew Hfull. rewrite tracked_elem in Hnew.
  assert (url i ∉ (imageQueue n).*1) as Hq by tauto.
  assert (processes n !! url i = None) as Hp.
  { apply eq_None_not_Some. tauto. }
  split.
  - rewrite add_eq, Hl.
    assert (queue_has (url i) (imageQueue n) = false) as ->.
    { apply not_true_is_false. by rewrite queue_has_spec. }
    rewrite Hp, bool_decide_eq_false_2 by (by intros [? ?]). simpl.
    rewrite update_full by done. unfold set_imageQueue. by rewrite queue_set_new.
  - rewrite remove_eq. cbn [imageQueue set_imageQueue].
    rewrite queue_get_snoc by done.
    assert (set_imageQueue (queue_delete (url i))
              (set_imageQueue (λ q, q ++ [(url i, i)]) n) = n) as ->.
    { unfold set_imageQueue. simpl. rewrite queue_delete_snoc by done. by destruct n. }
    rewrite update_full by done. cbn zeta. unfold state_of, trace_of, abort_call.
    cbn [fst snd app]. by rewrite Hp.
Qed.

(** *** A cap of zero or less *)

(** [new Network(0)], or a negative cap, is kept as it is: no loader is
    ever in flight, and no operation makes any call, neither a
    "check-memory" question nor the start of a loader. *)
Theorem nonpositive_cap_is_inert (loaders : option Z) (n : Network) (o : Op) :
  reachable loaders n →
  maxProcesses (new loaders) ≤ 0 →
  processes n = ∅ ∧ trace_of (step o n) = [].
Proof.
  intros Hr Hcap. pose proof (reachable_within_cap _ _ Hr) as Hn.
  unfold within_cap in Hn. rewrite (reachable_maxProcesses _ _ Hr) in Hn.
  simpl in Hcap. assert (processes n = ∅) as He by (apply map_size_empty_inv; lia).
  split; [done|].
  assert (∀ n', processes n' = processes n → maxProcesses n' = maxProcesses n →
          ∀ r, update r n' = (tt, n', [])) as Hu.
  { intros n' Hp Hm r. apply update_full.
    rewrite Hp, Hm, He, map_size_empty, (reachable_maxProcesses _ _ Hr). lia. }
  destruct o as [i r|i r|u ev r]; simpl.
  - rewrite add_eq. destruct (loaded i); [done|]. rewrite Hu; [done|by destruct (_ && _)..].
  - rewrite remove_eq. destruct (queue_get _ _).
    + rewrite Hu by done. cbn zeta. unfold state_of, trace_of, abort_call.
      cbn [fst snd app processes set_imageQueue]. by rewrite He, lookup_empty.
    + cbn zeta. unfold state_of, trace_of, abort_call. cbn [fst snd app].
      by rewrite He, lookup_empty.
  - rewrite on_event_eq. by rewrite He, lookup_empty.
Qed.

(** *** The counters *)

(** What an operation adds to [loadedCount] and to [erroredCount]: one for
    a [load], respectively an [error] or a [timeout], of a loader that is
    in flight. *)
Definition loads (o : Op) (n : Network) : Z :=
  match o with
  | Fire u Load _ => match processes n !! u with Some _ => 1 | None => 0 end
  | _ => 0
  end.

Definition errors (o : Op) (n : Network) : Z :=
  match o with
  | Fire u Error _ | Fire u Timeout _ =>
      match processes n !! u with Some _ => 1 | None => 0 end
  | _ => 0
  end.

Lemma state_of_triple (a : unit) (n : Network) (t : list Effect) :
  state_of (a, n, t) = n.
Proof. done. Qed.

Lemma step_counts o n :
  loadedCount (state_of (step o n)) = loadedCount n + loads o n
  ∧ erroredCount (state_of (step o n)) = erroredCount n + errors o n
  ∧ canceledCount (state_of (step o n)) = canceledCount n.
Proof.
  destruct o as [i r|i r|u ev r]; cbn [step loads errors].
  - rewrite add_eq. destruct (loaded i); [rewrite state_of_triple; lia|].
    destruct (update_settings r
      (if negb (queue_has (url i) (imageQueue n))
          && negb (bool_decide (is_Some (processes n !! url i)))
       then set_imageQueue (queue_set (url i) i) n else n)) as [_ -> -> ->].
    destruct (_ && _); simpl; lia.
  - rewrite remove_eq. cbn zeta. rewrite state_of_triple.
    destruct (queue_get _ _); [|rewrite state_of_triple; lia].
    destruct (update_settings r (set_imageQueue (queue_delete (url i)) n))
      as [_ -> -> ->]. simpl. lia.
  - rewrite on_event_eq. destruct (processes n !! u) as [p|];
      [|destruct ev; rewrite state_of_triple; lia].
    rewrite handler_state. destruct ev; try lia.
    + destruct (onDone_settings (image p) r n) as [_ -> -> ->]. lia.
    + destruct (onDone_settings (image p) r (incr_erroredCount n)) as [_ -> -> ->].
      simpl. lia.
    + destruct (onDone_settings (image p) r (incr_erroredCount n)) as [_ -> -> ->].
      simpl. lia.
    + destruct (onDone_settings (image p) r (incr_loadedCount n)) as [_ -> -> ->].
      simpl. lia.
Qed.

(** Every operation adds to [loadedCount] one for a [load] of a loader in
    flight and nothing else, to [erroredCount] one for an [error] or a
    [timeout] of a loader in flight and nothing else, and leaves
    [canceledCount] as it is. *)
Theorem step_counters (o : Op) (n : Network) :
  loadedCount (state_of (step o n)) = loadedCount n + loads o n
  ∧ erroredCount (state_of (step o n)) = erroredCount n + errors o n
  ∧ canceledCount (state_of (step o n)) = canceledCount n.
Proof. apply step_counts. Qed.

(** [canceledCount] is 0 in every reachable state, whatever was removed or
    aborted; the other two counters are not negative. *)
Theorem canceledCount_stays_zero (loaders : option Z) (n : Network) :
  reachable loaders n →
  canceledCount n = 0 ∧ 0 ≤ loadedCount n ∧ 0 ≤ erroredCount n.
Proof.
  induction 1 as [|o n Hr (Hc & Hl & He)]; [done|].
  destruct (step_counts o n) as (-> & -> & ->).
  assert (0 ≤ loads o n).
  { unfold loads. destruct o as [| |u [] r]; try lia. destruct (processes n !! u); lia. }
  assert (0 ≤ errors o n).
  { unfold errors. destruct o as [| |u [] r]; try lia; destruct (processes n !! u); lia. }
  lia.
Qed.


(** *** More examples *)

Lemma reachable_processes_keyed_witness :
  url (image {| image := pending "a"; loader := {| loader_url := "a" |} |}) = "a"
  ∧ loader_url (loader {| image := pending "a"; loader := {| loader_url := "a" |} |}) = "a".
Proof.
  apply (reachable_processes_keyed (Some 1) a_in_flight_b_queued "a"
           {| image := pending "a"; loader := {| loader_url := "a" |} |}
           a_in_flight_b_queued_reachable).
  vm_compute. reflexivity.
Defined.

Lemma update_keeps_tracked_witness :
  tracked (state_of (update [] a_in_flight_b_queued)) = tracked a_in_flight_b_queued.
Proof.
  apply (update_keeps_tracked (Some 1) [] a_in_flight_b_queued
           a_in_flight_b_queued_reachable).
Defined.

Lemma add_tracks_url_witness :
  tracked (state_of (add (pending "c") [] a_in_flight_b_queued))
  = {["c"]} ∪ tracked a_in_flight_b_queued.
Proof.
  apply (add_tracks_url (Some 1) a_in_flight_b_queued (pending "c") []
           a_in_flight_b_queued_reachable).
  reflexivity.
Defined.

Lemma terminal_event_releases_url_witness :
  processes (state_of (on_event "a" Abort [] a_in_flight_b_queued)) !! "a" = None
  ∧ tracked (state_of (on_event "a" Abort [] a_in_flight_b_queued))
    = tracked a_in_flight_b_queued ∖ {["a"]}.
Proof.
  apply (terminal_event_releases_url (Some 1) a_in_flight_b_queued "a"
           {| image := pending "a"; loader := {| loader_url := "a" |} |} Abort []
           a_in_flight_b_queued_reachable).
  - vm_compute. reflexivity.
  - reflexivity.
Defined.

Lemma remove_cases_witness :
  remove (pending "a") [] a_in_flight_b_queued
  = (tt, a_in_flight_b_queued, [LoaderAbort "a"]).
Proof.
  destruct (remove_cases (Some 1) a_in_flight_b_queued (pending "a") []
              a_in_flight_b_queued_reachable) as (_ & Hflight & _).
  apply Hflight. vm_compute. eauto.
Defined.

Lemma update_fills_the_pool_witness :
  imageQueue (state_of (update [] a_in_flight_b_queued)) = []
  ∨ maxProcesses (state_of (update [] a_in_flight_b_queued))
    ≤ Z.of_nat (size (processes (state_of (update [] a_in_flight_b_queued)))).
Proof.
  apply (update_fills_the_pool [] a_in_flight_b_queued).
  intros j. by destruct j.
Defined.

Lemma add_remove_full_pool_witness :
  add (pending "c") [] a_in_flight_b_queued
  = (tt, set_imageQueue (λ q, q ++ [("c", pending "c")]) a_in_flight_b_queued, [])
  ∧ remove (pending "c") []
      (set_imageQueue (λ q, q ++ [("c", pending "c")]) a_in_flight_b_queued)
    = (tt, a_in_flight_b_queued, []).
Proof.
  apply (add_remove_full_pool a_in_flight_b_queued (pending "c") [] []).
  - reflexivity.
  - apply (bool_decide_unpack _). vm_compute. exact I.
  - vm_compute. discriminate.
Defined.

Lemma nonpositive_cap_is_inert_witness :
  processes (state_of (step (Add (pending "a") []) (new (Some 0)))) = ∅
  ∧ trace_of (step (Fire "a" Load [])
                (state_of (step (Add (pending "a") []) (new (Some 0))))) = [].
Proof.
  apply (nonpositive_cap_is_inert (Some 0)).
  - apply reachable_step, reachable_new.
  - simpl. lia.
Defined.

Lemma canceledCount_stays_zero_witness :
  canceledCount (state_of (on_event "a" Abort [] a_in_flight_b_queued)) = 0
  ∧ 0 ≤ loadedCount (state_of (on_event "a" Abort [] a_in_flight_b_queued))
  ∧ 0 ≤ erroredCount (state_of (on_event "a" Abort [] a_in_flight_b_queued)).
Proof.
  apply (canceledCount_stays_zero (Some 1)).
  apply (reachable_step (Some 1) (Fire "a" Abort [])).
  apply a_in_flight_b_queued_reachable.
Defined.


End Network.

(** ** The image entry: class [Img] *)

Module Img.

(** [Size]: [{ width, height }] *)
Record Size := { width : Z; height : Z }.

(** A fetched blob and a render request, by identity. *)
Definition Blob := nat.
Definition RenderRequest := nat.

(** The handlers the class assigns to [element.onload] and [element.onerror]. *)
Inductive ElementHandler := OnBlobAssigned | OnBlobError.

(** What the class uses of its [HTMLImageElement]; [size] stands for
    [element.width] and [element.height]. *)
Record HTMLImageElement := {
  onload : option ElementHandler;
  onerror : option ElementHandler;
  src : string;
  size : Size;
}.

(** The listeners of the image: its own [#onLoadEnd], installed by the
    constructor, and those of other objects. *)
Inductive Listener := OnLoadEnd | Outside (id : nat).

#[global] Instance Listener_eq_dec : EqDecision Listener.
Proof. solve_decision. Defined.

(** Calls made by the image on other objects. *)
Inductive Effect :=
| Emit (type : string) (to : list Listener)  (* this.emit(type, ...), with the
                                                listeners of [type] at that time *)
| CreateObjectURL (b : Blob) (u : string)    (* URL.createObjectURL(blob), returning u *)
| RevokeObjectURL (u : string)               (* URL.revokeObjectURL(u) *)
| RequestOn (r : RenderRequest)              (* request.on("rendered", this.#onRendered) *)
| RequestOff (r : RenderRequest)             (* request.off("rendered", this.#onRendered) *)
| Throw (msg : string).

#[global] Instance Effect_eq_dec : EqDecision Effect.
Proof. solve_decision. Defined.

(** The fields of an [Img]; the first three are inherited from [Loader]. *)
Record Img := {
  bytes : Z;
  blob : option Blob;
  listeners : list (string * Listener);
  element : HTMLImageElement;
  renderRequests : list RenderRequest;
  gotSize : bool;
  decoded : bool;
  bytesUncompressed : Z;
}.

(** *** Field updates *)

Definition set_onload (h : option ElementHandler) (e : HTMLImageElement) :=
  {| onload := h; onerror := onerror e; src := src e; size := size e |}.
Definition set_onerror (h : option ElementHandler) (e : HTMLImageElement) :=
  {| onload := onload e; onerror := h; src := src e; size := size e |}.
Definition set_src (u : string) (e : HTMLImageElement) :=
  {| onload := onload e; onerror := onerror e; src := u; size := size e |}.
Definition set_size (z : Size) (e : HTMLImageElement) :=
  {| onload := onload e; onerror := onerror e; src := src e; size := z |}.

Definition set_loaded (b : Blob) (n : Z) (s : Img) :=
  {| bytes := n; blob := Some b; listeners := listeners s; element := element s;
     renderRequests := renderRequests s; gotSize := gotSize s; decoded := decoded s;
     bytesUncompressed := bytesUncompressed s |}.
Definition set_listeners (f : list (string * Listener) → list (string * Listener)) (s : Img) :=
  {| bytes := bytes s; blob := blob s; listeners := f (listeners s); element := element s;
     renderRequests := renderRequests s; gotSize := gotSize s; decoded := decoded s;
     bytesUncompressed := bytesUncompressed s |}.
Definition set_element (f : HTMLImageElement → HTMLImageElement) (s : Img) :=
  {| bytes := bytes s; blob := blob s; listeners := listeners s; element := f (element s);
     renderRequests := renderRequests s; gotSize := gotSize s; decoded := decoded s;
     bytesUncompressed := bytesUncompressed s |}.
Definition set_renderRequests (f : list RenderRequest → list RenderRequest) (s : Img) :=
  {| bytes := bytes s; blob := blob s; listeners := listeners s; element := element s;
     renderRequests := f (renderRequests s); gotSize := gotSize s; decoded := decoded s;
     bytesUncompressed := bytesUncompressed s |}.
Definition set_gotSize (b : bool) (s : Img) :=
  {| bytes := bytes s; blob := blob s; listeners := listeners s; element := element s;
     renderRequests := renderRequests s; gotSize := b; decoded := decoded s;
     bytesUncompressed := bytesUncompressed s |}.
Definition set_decoded (b : bool) (s : Img) :=
  {| bytes := bytes s; blob := blob s; listeners := listeners s; element := element s;
     renderRequests := renderRequests s; gotSize := gotSize s; decoded := b;
     bytesUncompressed := bytesUncompressed s |}.
Definition set_bytesUncompressed (n : Z) (s : Img) :=
  {| bytes := bytes s; blob := blob s; listeners := listeners s; element := element s;
     renderRequests := renderRequests s; gotSize := gotSize s; decoded := decoded s;
     bytesUncompressed := n |}.

(** *** A JavaScript [Set] in insertion order *)

Definition set_add (r : RenderRequest) (l : list RenderRequest) : list RenderRequest :=
  if bool_decide (r ∈ l) then l else l ++ [r].

Definition set_delete (r : RenderRequest) (l : list RenderRequest) : list RenderRequest :=
  filter (λ x, x ≠ r) l.

(** *** The methods *)

Abbreviation M := (M Img Effect).

(** [new Img(props)]: nothing fetched, [new Image()], the listener of
    "loadend". *)
Definition new : Img :=
  {| bytes := 0; blob := None; listeners := [("loadend", OnLoadEnd)];
     element := {| onload := None; onerror := None; src := "";
                   size := {| width := 0; height := 0 |} |};
     renderRequests := []; gotSize := false; decoded := false;
     bytesUncompressed := 0 |}.

(** The listeners of one type of event. *)
Definition listeners_of (type : string) (s : Img) : list Listener :=
  (filter (λ e, e.1 = type) (listeners s)).*2.

(** [emit]: the listeners of other objects are outside of the class. *)
Definition emit (type : string) : M unit :=
  s ← get; call (Emit type (listeners_of type s)).

Definition on (type : string) (l : Listener) : M unit :=
  modify (set_listeners (λ ls, ls ++ [(type, l)])).

Definition removeAllListeners : M unit := modify (set_listeners (λ _, [])).

Definition getBytesRam (s : Img) : Z :=
  bytes s + (if decoded s then bytesUncompressed s else 0).

Definition getBytesVideo (z : Size) : Z := width z * height z * 4.

Definition registerRequest (r : RenderRequest) : M unit :=
  modify (set_renderRequests (set_add r));;
  call (RequestOn r);;
  emit "render-request-added".

Definition unregisterRequest (r : RenderRequest) : M unit :=
  call (RequestOff r);;
  modify (set_renderRequests (set_delete r));;
  emit "render-request-removed".

(** [for (const request of this.renderRequests)] *)
Fixpoint for_each (rs : list RenderRequest) (body : RenderRequest → M unit) : M unit :=
  match rs with
  | [] => mret tt
  | r :: rs' => body r;; for_each rs' body
  end.

Definition clear : M unit :=
  modify (set_element (set_onload None));;
  modify (set_element (set_onerror None));;
  modify (set_element (set_src ""));;
  modify (set_gotSize false);;
  modify (set_bytesUncompressed 0);;
  s ← get;
  call (RevokeObjectURL (src (element s)));;
  for_each (renderRequests s) unregisterRequest;;
  emit "clear";;
  removeAllListeners.

(** [#onLoadEnd]; [u] is the URL that [URL.createObjectURL] returns. *)
Definition onLoadEnd (u : string) : M unit :=
  s ← get;
  match blob s with
  | None => call (Throw "No blob data found!")
  | Some b =>
      modify (set_element (set_onload (Some OnBlobAssigned)));;
      modify (set_element (set_onerror (Some OnBlobError)));;
      call (CreateObjectURL b u);;
      modify (set_element (set_src u))
  end.

Definition onBlobAssigned : M unit :=
  modify (set_element (set_onload None));;
  modify (set_element (set_onerror None));;
  modify (set_gotSize true);;
  s ← get;
  modify (set_bytesUncompressed (getBytesVideo (size (element s))));;
  emit "size".

Definition onBlobError : M unit :=
  modify (set_element (set_onload None));;
  modify (set_element (set_onerror None));;
  emit "blob-error".

Definition onRendered : M unit :=
  modify (set_decoded true);;
  emit "render-request-rendered".

(** *** What reaches the image from outside *)

(** Modelled from the spec: the class [Loader], which [Img] extends, is
    not part of the sources.  On success it exposes the fetched bytes as
    a blob and the total byte count, and emits "loadend", which runs
    [#onLoadEnd] if that listener is still installed. *)
Definition loader_done (b : Blob) (n : N) (u : string) : M unit :=
  modify (set_loaded b (Z.of_N n));;
  emit "loadend";;
  s ← get;
  if bool_decide (OnLoadEnd ∈ listeners_of "loadend" s) then onLoadEnd u else mret tt.

Definition run_handler (h : option ElementHandler) : M unit :=
  match h with
  | Some OnBlobAssigned => onBlobAssigned
  | Some OnBlobError => onBlobError
  | None => mret tt
  end.

(** The browser has decoded [element.src], an image of [w] by [h] pixels,
    and calls [element.onload]. *)
Definition element_load (w h : N) : M unit :=
  modify (set_element (set_size {| width := Z.of_N w; height := Z.of_N h |}));;
  s ← get;
  run_handler (onload (element s)).

(** The browser could not decode [element.src] and calls [element.onerror]. *)
Definition element_error : M unit :=
  s ← get;
  run_handler (onerror (element s)).

Inductive Op :=
| Clear
| RegisterRequest (r : RenderRequest)
| UnregisterRequest (r : RenderRequest)
| On (type : string) (id : nat)
| LoaderDone (b : Blob) (n : N) (u : string)
| ElementLoad (w h : N)
| ElementError
| Rendered (r : RenderRequest).

(** [Rendered] is the "rendered" event of a request on which [#onRendered]
    is installed; it is allowed at any time. *)
Definition step (o : Op) : M unit :=
  match o with
  | Clear => clear
  | RegisterRequest r => registerRequest r
  | UnregisterRequest r => unregisterRequest r
  | On type id => on type (Outside id)
  | LoaderDone b n u => loader_done b n u
  | ElementLoad w h => element_load w h
  | ElementError => element_error
  | Rendered _ => onRendered
  end.

Fixpoint run (ops : list Op) : M unit :=
  match ops with
  | [] => mret tt
  | o :: ops' => step o;; run ops'
  end.

Inductive reachable : Img → Prop :=
| reachable_new : reachable new
| reachable_step o s : reachable s → reachable (state_of (step o s)).

(** *** [clear] in closed form *)

Ltac run_img :=
  unfold registerRequest, unregisterRequest, onLoadEnd, onBlobAssigned, onBlobError,
    onRendered, removeAllListeners, on, emit;
  run_M.

Lemma set_delete_all (rs : list RenderRequest) : ∀ l : list RenderRequest,
  l ⊆ rs → foldl (λ l r, set_delete r l) l rs = [].
Proof.
  induction rs as [|r rs IH]; intros l Hl; simpl.
  - destruct l as [|x l]; [done|]. exfalso. by eapply not_elem_of_nil, Hl, elem_of_cons; left.
  - apply IH. intros x [Hne Hx]%list_elem_of_filter.
    by apply Hl, elem_of_cons in Hx as [->|Hx].
Qed.

(** The calls of [unregisterRequest] for the requests [rs], in a state
    with the listeners of [s]. *)
Definition unregister_calls (rs : list RenderRequest) (s : Img) : list Effect :=
  flat_map (λ r, [RequestOff r; Emit "render-request-removed"
                                  (listeners_of "render-request-removed" s)]) rs.

Lemma for_each_unregister rs : ∀ s,
  for_each rs unregisterRequest s =
    (tt, set_renderRequests (λ l, foldl (λ l r, set_delete r l) l rs) s,
     unregister_calls rs s).
Proof.
  induction rs as [|r rs IH]; intros s; simpl.
  - by destruct s.
  - run_img. simpl. rewrite IH. by destruct s.
Qed.

(** The fields after [clear]. *)
Definition cleared (s : Img) : Img :=
  {| bytes := bytes s; blob := blob s; listeners := [];
     element := {| onload := None; onerror := None; src := "";
                   size := size (element s) |};
     renderRequests := []; gotSize := false; decoded := decoded s;
     bytesUncompressed := 0 |}.

Lemma clear_eq s :
  clear s =
    (tt, cleared s,
     RevokeObjectURL "" :: unregister_calls (renderRequests s) s
       ++ [Emit "clear" (listeners_of "clear" s)]).
Proof.
  unfold clear. run_img. simpl. rewrite for_each_unregister.
  unfold set_renderRequests. simpl.
  by rewrite set_delete_all.
Qed.

(** *** C6: what [clear] revokes *)

(** The arguments of the calls of [URL.revokeObjectURL] in a trace. *)
Definition revoked (t : list Effect) : list string :=
  omap (λ e, match e with RevokeObjectURL u => Some u | _ => None end) t.

Lemma revoked_app t1 t2 : revoked (t1 ++ t2) = revoked t1 ++ revoked t2.
Proof. apply omap_app. Qed.

Lemma revoked_unregister_calls rs s : revoked (unregister_calls rs s) = [].
Proof. induction rs as [|r rs IH]; [done|]. simpl. exact IH. Qed.

(** C6.  What the code does: [clear] calls [URL.revokeObjectURL] once, and
    with the empty string, because it reads [element.src] after it has
    set it to the empty string.  The blob URL that [element.src] held is
    not revoked. *)
Theorem clear_revokes_the_emptied_src (s : Img) :
  revoked (trace_of (clear s)) = [""].
Proof.
  rewrite clear_eq. unfold trace_of. simpl.
  change (RevokeObjectURL "" :: ?t) with ([RevokeObjectURL ""] ++ t).
  rewrite !revoked_app, revoked_unregister_calls. done.
Qed.

(** The rest of [clear] is as documented: the handlers of the element are
    null, [gotSize] and [bytesUncompressed] are reset, every attached
    request is unregistered, "clear" is emitted to the listeners that
    were installed, and no listener is left. *)
Lemma clear_resets s :
  onload (element (state_of (clear s))) = None
  ∧ onerror (element (state_of (clear s))) = None
  ∧ gotSize (state_of (clear s)) = false
  ∧ bytesUncompressed (state_of (clear s)) = 0
  ∧ renderRequests (state_of (clear s)) = []
  ∧ (∀ r, r ∈ renderRequests s → RequestOff r ∈ trace_of (clear s))
  ∧ Emit "clear" (listeners_of "clear" s) ∈ trace_of (clear s)
  ∧ listeners (state_of (clear s)) = [].
Proof.
  rewrite clear_eq. unfold state_of, trace_of. simpl. split_and!; try done.
  - intros r Hr. apply elem_of_cons. right. apply elem_of_app. left.
    unfold unregister_calls. apply list_elem_of_In, in_flat_map. exists r.
    split; [by apply list_elem_of_In|]. by left.
  - apply elem_of_cons. right. apply elem_of_app. right. by apply elem_of_cons; left.
Qed.

(** *** C7: [clear] twice *)

(** C7.  A second [clear] leaves every field of the image as the first
    [clear] left it; it unregisters nothing and its "clear" event has no
    listener. *)
Theorem clear_twice (s : Img) :
  state_of (clear (state_of (clear s))) = state_of (clear s)
  ∧ trace_of (clear (state_of (clear s))) = [RevokeObjectURL ""; Emit "clear" []].
Proof. by rewrite !clear_eq. Qed.

(** *** C8: byte accounting *)

(** C8.  [getBytesRam()] is [bytes + bytesUncompressed] for a decoded image
    and [bytes] otherwise; [getBytesVideo(size)] is
    [size.width * size.height * 4]. *)
Theorem bytes_accounting (s : Img) (z : Size) :
  getBytesRam s = (if decoded s then bytes s + bytesUncompressed s else bytes s)
  ∧ getBytesVideo z = width z * height z * 4.
Proof.
  split; [|done]. unfold getBytesRam. destruct (decoded s); lia.
Qed.

(** *** C10: what [clear] keeps *)

(** C10.  [clear] leaves [bytes] and [decoded] as they were; afterwards
    [getBytesRam()] is [bytes], decoded or not. *)
Theorem clear_keeps_bytes_and_decoded (s : Img) :
  bytes (state_of (clear s)) = bytes s
  ∧ decoded (state_of (clear s)) = decoded s
  ∧ getBytesRam (state_of (clear s)) = bytes s.
Proof.
  rewrite clear_eq. unfold state_of, getBytesRam. simpl.
  split_and!; try done. destruct (decoded s); lia.
Qed.

(** *** C5: [bytesUncompressed], [gotSize] and [decoded] *)

(** [bytesUncompressed] is an estimate for the size the element reported:
    it is not negative, and it is 0 as long as no size is known. *)
Record size_ok (s : Img) : Prop := {
  element_size_nonneg : 0 ≤ width (size (element s)) ∧ 0 ≤ height (size (element s));
  bytesUncompressed_nonneg : 0 ≤ bytesUncompressed s;
  bytesUncompressed_unknown : gotSize s = false → bytesUncompressed s = 0;
}.

Lemma new_size_ok : size_ok new.
Proof. split; simpl; [lia|lia|done]. Qed.

Lemma run_handler_size_ok h s : size_ok s → size_ok (state_of (run_handler h s)).
Proof.
  intros [[Hw Hh] Hb Hg]. destruct h as [[]|]; simpl; [| |by split].
  - split; simpl; [done| |done]. unfold getBytesVideo. nia.
  - by split.
Qed.

Lemma step_size_ok o s : size_ok s → size_ok (state_of (step o s)).
Proof.
  intros Hs. destruct o; simpl.
  - rewrite clear_eq. destruct Hs as [? ? ?]. by split.
  - destruct Hs as [? ? ?]. by split.
  - destruct Hs as [? ? ?]. by split.
  - destruct Hs as [? ? ?]. by split.
  - destruct Hs as [? ? ?]. unfold loader_done. run_img. simpl.
    destruct (bool_decide _); by split.
  - unfold element_load. run_M. simpl.
    match goal with |- context [run_handler ?h ?s'] =>
      pose proof (run_handler_size_ok h s') as Hh;
      destruct (run_handler h s') as [[[] s''] t] end.
    apply Hh. destruct Hs as [? ? ?]. split; simpl; [lia|done..].
  - unfold element_error. run_M.
    pose proof (run_handler_size_ok (onerror (element s)) s Hs) as Hh.
    by destruct (run_handler _ s) as [[[] s''] t].
  - destruct Hs as [? ? ?]. by split.
Qed.

Lemma reachable_size_ok s : reachable s → size_ok s.
Proof. induction 1; [apply new_size_ok|by apply step_size_ok]. Qed.

(** C5, as the code has it.  In every reachable state [bytesUncompressed]
    is not negative, and it is positive only if [gotSize] holds.  [decoded]
    is a flag of its own: the size determination and [clear] leave it as
    it is, and the render notification sets it and leaves
    [bytesUncompressed] as it is. *)
Theorem bytesUncompressed_positive_only_with_size (s : Img) :
  reachable s →
  0 ≤ bytesUncompressed s
  ∧ (0 < bytesUncompressed s → gotSize s = true)
  ∧ decoded (state_of (onBlobAssigned s)) = decoded s
  ∧ decoded (state_of (clear s)) = decoded s
  ∧ decoded (state_of (onRendered s)) = true
  ∧ bytesUncompressed (state_of (onRendered s)) = bytesUncompressed s.
Proof.
  intros [_ Hb Hg]%reachable_size_ok. split_and!; try done.
  - intros Hpos. destruct (gotSize s); [done|]. specialize (Hg eq_refl). lia.
  - by rewrite clear_eq.
Qed.

(** *** Examples *)

(** An image of 10 by 10 pixels that is fetched and measured, and that no
    request has rendered. *)
Definition measured : Img :=
  state_of (run [LoaderDone 5%nat 1000 "blob:1"; ElementLoad 10 10] new).

Lemma measured_reachable : reachable measured.
Proof.
  change measured with
    (state_of (step (ElementLoad 10 10)
       (state_of (step (LoaderDone 5%nat 1000 "blob:1") new)))).
  apply reachable_step, reachable_step, reachable_new.
Qed.

(** Its blob URL is in [element.src], and [clear] does not revoke it. *)
Lemma measured_clear_leaks_blob_url :
  src (element measured) = "blob:1"
  ∧ "blob:1" ∉ revoked (trace_of (clear measured)).
Proof.
  split; [done|]. change (revoked (trace_of (clear measured))) with [""].
  by intros ?%list_elem_of_singleton.
Qed.

(** The measured image has [bytesUncompressed = 400] and is not decoded. *)
Lemma measured_not_decoded :
  reachable measured
  ∧ ¬ (0 < bytesUncompressed measured ↔ decoded measured = true).
Proof.
  split; [apply measured_reachable|]. intros [Hd _].
  assert (decoded measured = true) by (apply Hd; vm_compute; reflexivity). done.
Qed.

(** A rendered image that is cleared is decoded and has
    [bytesUncompressed = 0]. *)
Lemma cleared_still_decoded :
  let s := state_of (run [Rendered 1%nat; Clear] measured) in
  decoded s = true ∧ bytesUncompressed s = 0.
Proof. done. Qed.

Lemma bytesUncompressed_positive_only_with_size_witness :
  0 ≤ bytesUncompressed measured
  ∧ (0 < bytesUncompressed measured → gotSize measured = true)
  ∧ decoded (state_of (onBlobAssigned measured)) = decoded measured
  ∧ decoded (state_of (clear measured)) = decoded measured
  ∧ decoded (state_of (onRendered measured)) = true
  ∧ bytesUncompressed (state_of (onRendered measured)) = bytesUncompressed measured.
Proof.
  apply (bytesUncompressed_positive_only_with_size measured).
  apply measured_reachable.
Defined.

(** *** [registerRequest] and [unregisterRequest] *)

Lemma set_delete_fresh (r : RenderRequest) (l : list RenderRequest) :
  r ∉ l → set_delete r l = l.
Proof.
  unfold set_delete. induction l as [|x l IH]; [done|].
  intros [Hne Hr]%not_elem_of_cons. rewrite filter_cons_True by done. by rewrite IH.
Qed.

Lemma set_delete_snoc (r : RenderRequest) (l : list RenderRequest) :
  r ∉ l → set_delete r (l ++ [r]) = l.
Proof.
  intros Hr. unfold set_delete. rewrite filter_app, filter_cons_False by (by intros ?).
  rewrite filter_nil, app_nil_r. by apply set_delete_fresh.
Qed.

(** [unregisterRequest] does not look whether the request is attached: for
    a request that is not, the image stays as it is, and still
    [request.off] is called and "render-request-removed" is emitted. *)
Theorem unregisterRequest_not_attached (s : Img) (r : RenderRequest) :
  r ∉ renderRequests s →
  unregisterRequest r s =
    (tt, s, [RequestOff r; Emit "render-request-removed"
                             (listeners_of "render-request-removed" s)]).
Proof.
  intros Hr. unfold unregisterRequest. run_img. simpl.
  unfold set_renderRequests. rewrite set_delete_fresh by done. by destruct s.
Qed.

(** [registerRequest] of a request that is not attached, followed by
    [unregisterRequest] of it, gives back the image as it was. *)
Theorem register_unregister (s : Img) (r : RenderRequest) :
  r ∉ renderRequests s →
  renderRequests (state_of (registerRequest r s)) = renderRequests s ++ [r]
  ∧ state_of (unregisterRequest r (state_of (registerRequest r s))) = s.
Proof.
  intros Hr. unfold registerRequest, unregisterRequest. run_img.
  unfold state_of, set_renderRequests, set_add. simpl.
  rewrite bool_decide_eq_false_2 by done. split; [done|].
  rewrite set_delete_snoc by done. by destruct s.
Qed.

(** [registerRequest] does not look whether the request is attached: for
    a request that is, the image stays as it is, with the request once
    in [renderRequests], and [request.on] is called once more. *)
Theorem registerRequest_attached (s : Img) (r : RenderRequest) :
  r ∈ renderRequests s →
  registerRequest r s =
    (tt, s, [RequestOn r; Emit "render-request-added"
                            (listeners_of "render-request-added" s)]).
Proof.
  intros Hr. unfold registerRequest. run_img. simpl.
  unfold set_renderRequests, set_add. rewrite bool_decide_eq_true_2 by done.
  by destruct s.
Qed.

(** *** [isLocked] *)

(** The loop of [isLocked] over [this.renderRequests.values()]; [locked r]
    is the answer of [request.isLocked()], a method of the class
    [RenderRequest], which belongs to another file. *)
Fixpoint any_locked (locked : RenderRequest → bool) (rs : list RenderRequest) : bool :=
  match rs with
  | [] => false
  | r :: rs' => if locked r then true else any_locked locked rs'
  end.

Definition isLocked (locked : RenderRequest → bool) (s : Img) : bool :=
  any_locked locked (renderRequests s).

(** [isLocked()] is true exactly if some attached request is locked; it
    is false after [clear], whatever the locks are. *)
Theorem isLocked_iff (locked : RenderRequest → bool) (s : Img) :
  (isLocked locked s = true ↔ ∃ r, r ∈ renderRequests s ∧ locked r = true)
  ∧ isLocked locked (state_of (clear s)) = false.
Proof.
  split; [|by rewrite clear_eq]. unfold isLocked.
  induction (renderRequests s) as [|r rs IH]; simpl.
  - split; [done|]. by intros (r & ?%elem_of_nil & _).
  - destruct (locked r) eqn:Hr.
    + split; [|done]. intros _. exists r. split; [by apply elem_of_cons; left|done].
    + rewrite IH. split.
      * intros (r' & Hin & Hl). exists r'. split; [by apply elem_of_cons; right|done].
      * intros (r' & [->|Hin]%elem_of_cons & Hl); [congruence|eauto].
Qed.

(** *** From the fetched blob to the size *)

(** With a blob, [#onLoadEnd] makes a blob URL, puts it in [element.src]
    and installs both handlers.  When the browser then reports an image
    of [w] by [h] pixels, the image has its size, the estimate
    [w * h * 4], no handler, and emits "size"; when it reports a failure,
    the image has no size and no handler, and emits "blob-error". *)
Theorem onLoadEnd_then_browser (s : Img) (b : Blob) (u : string) (w h : N) :
  blob s = Some b →
  let s1 := state_of (onLoadEnd u s) in
  let s2 := state_of (element_load w h s1) in
  let s3 := state_of (element_error s1) in
  trace_of (onLoadEnd u s) = [CreateObjectURL b u]
  ∧ src (element s1) = u
  ∧ (gotSize s2 = true
     ∧ bytesUncompressed s2 = Z.of_N w * Z.of_N h * 4
     ∧ onload (element s2) = None ∧ onerror (element s2) = None
     ∧ trace_of (element_load w h s1) = [Emit "size" (listeners_of "size" s)])
  ∧ (gotSize s3 = gotSize s
     ∧ bytesUncompressed s3 = bytesUncompressed s
     ∧ onload (element s3) = None ∧ onerror (element s3) = None
     ∧ trace_of (element_error s1) = [Emit "blob-error" (listeners_of "blob-error" s)]).
Proof.
  intros Hb. unfold onLoadEnd, element_load, element_error. run_M. rewrite Hb.
  by simpl.
Qed.


(** *** Sequences of operations *)

Lemma run_cons o ops s :
  run (o :: ops) s =
    (tt, state_of (run ops (state_of (step o s))),
     trace_of (step o s) ++ trace_of (run ops (state_of (step o s)))).
Proof.
  simpl. run_M. unfold state_of, trace_of.
  destruct (step o s) as [[[] s1] t1]. simpl. by destruct (run ops s1) as [[[] s2] t2].
Qed.

(** *** The browser reports once *)

(** The handlers of the element are installed together and removed
    together. *)
Definition handlers_paired (s : Img) : Prop :=
  (onload (element s) = None ∧ onerror (element s) = None)
  ∨ (onload (element s) = Some OnBlobAssigned ∧ onerror (element s) = Some OnBlobError).

Lemma step_handlers_paired o s :
  handlers_paired s → handlers_paired (state_of (step o s)).
Proof.
  intros Hs. destruct o; simpl; try done.
  - rewrite clear_eq. by left.
  - unfold loader_done. run_img. simpl. destruct (bool_decide _); [by right|done].
  - unfold element_load. run_M. simpl.
    destruct Hs as [[Hl He]|[Hl He]]; rewrite Hl; left; simpl; by rewrite ?He.
  - unfold element_error. run_M.
    destruct Hs as [[Hl He]|[Hl He]]; rewrite He; left; simpl; by rewrite ?Hl.
Qed.

Lemma reachable_handlers_paired s : reachable s → handlers_paired s.
Proof. induction 1; [by left|by apply step_handlers_paired]. Qed.

(** The calls of the browser on [element.onload] and [element.onerror]. *)
Definition element_event (o : Op) : bool :=
  match o with
  | ElementLoad _ _ | ElementError => true
  | _ => false
  end.

Lemma element_event_nulls o s :
  handlers_paired s → element_event o = true →
  onload (element (state_of (step o s))) = None
  ∧ onerror (element (state_of (step o s))) = None.
Proof.
  intros Hs Ho. destruct o; try done; simpl.
  - unfold element_load. run_M. simpl.
    destruct Hs as [[Hl He]|[Hl He]]; rewrite Hl; simpl; by rewrite ?He.
  - unfold element_error. run_M.
    destruct Hs as [[Hl He]|[Hl He]]; rewrite He; simpl; by rewrite ?Hl.
Qed.

(** Once the browser has called [element.onload] or [element.onerror],
    another such call does nothing: "size" or "blob-error" is emitted at
    most once for a fetched blob. *)
Theorem browser_reports_once (s : Img) (o1 o2 : Op) :
  reachable s →
  element_event o1 = true →
  element_event o2 = true →
  trace_of (step o2 (state_of (step o1 s))) = [].
Proof.
  intros Hr%reachable_handlers_paired Ho1 Ho2.
  destruct (element_event_nulls o1 s Hr Ho1) as [Hl He].
  destruct o2; try done; simpl.
  - unfold element_load. run_M. cbn [state_of fst snd element set_element set_size onload].
    by rewrite Hl.
  - unfold element_error. run_M. by rewrite He.
Qed.

(** *** After [clear] *)

(** The image cannot be measured any more: its listener of "loadend" is
    gone, the element has no handler and no size is known. *)
Record dead (s : Img) : Prop := {
  dead_listener : OnLoadEnd ∉ listeners_of "loadend" s;
  dead_onload : onload (element s) = None;
  dead_onerror : onerror (element s) = None;
  dead_gotSize : gotSize s = false;
  dead_bytesUncompressed : bytesUncompressed s = 0;
}.

(** The calls by which an image gets its size. *)
Definition measures (e : Effect) : bool :=
  match e with
  | CreateObjectURL _ _ => true
  | Emit type _ => bool_decide (type = "size")
  | _ => false
  end.

Lemma unregister_calls_measure rs s :
  Forall (λ e, measures e = false) (unregister_calls rs s).
Proof. induction rs as [|r rs IH]; simpl; [constructor|]. by repeat constructor. Qed.

Lemma step_dead o s :
  dead s →
  dead (state_of (step o s)) ∧ Forall (λ e, measures e = false) (trace_of (step o s)).
Proof.
  intros [Hl Hon Her Hg Hb]. destruct o; simpl.
  - rewrite clear_eq. split; [split; simpl; try done; apply not_elem_of_nil|].
    unfold trace_of. simpl. constructor; [done|]. apply Forall_app. split.
    + apply unregister_calls_measure.
    + by repeat constructor.
  - split; [by split|]. by repeat constructor.
  - split; [by split|]. by repeat constructor.
  - split; [|by constructor]. split; try done. unfold listeners_of in *. simpl.
    rewrite filter_app, fmap_app. intros [?|Hin]%elem_of_app; [done|].
    unfold filter in Hin. simpl in Hin. destruct (decide_rel _ _ _); simpl in Hin.
    + by apply list_elem_of_singleton in Hin.
    + by apply elem_of_nil in Hin.
  - unfold loader_done. run_img. simpl.
    rewrite bool_decide_eq_false_2 by done. split; [by split|]. by repeat constructor.
  - unfold element_load. run_M. simpl. rewrite Hon. split; [by split|constructor].
  - unfold element_error. run_M. rewrite Her. split; [by split|constructor].
  - split; [by split|]. by repeat constructor.
Qed.

Lemma run_dead ops : ∀ s,
  dead s →
  dead (state_of (run ops s)) ∧ Forall (λ e, measures e = false) (trace_of (run ops s)).
Proof.
  induction ops as [|o ops IH]; intros s Hs; [split; [done|constructor]|].
  rewrite run_cons. destruct (step_dead o s Hs) as [Hs1 Ht1].
  destruct (IH _ Hs1) as [Hs2 Ht2]. split; [done|]. by apply Forall_app.
Qed.

(** After [clear] no sequence of operations gives the image a size again:
    [gotSize] stays false and [bytesUncompressed] 0, no blob URL is made
    and "size" is not emitted, also when a fetch still completes. *)
Theorem cleared_stays_unmeasured (s : Img) (ops : list Op) :
  gotSize (state_of (run ops (state_of (clear s)))) = false
  ∧ bytesUncompressed (state_of (run ops (state_of (clear s)))) = 0
  ∧ (∀ b u, CreateObjectURL b u ∉ trace_of (run ops (state_of (clear s))))
  ∧ (∀ l, Emit "size" l ∉ trace_of (run ops (state_of (clear s)))).
Proof.
  destruct (run_dead ops (state_of (clear s))) as [[_ _ _ Hg Hb] Ht].
  { rewrite clear_eq. split; try done. apply not_elem_of_nil. }
  rewrite Forall_forall in Ht.
  split_and!; [done..| |].
  - intros b u Hin. by apply Ht in Hin.
  - intros l Hin. by apply Ht in Hin.
Qed.

(** *** [decoded] *)

Definition is_rendered (o : Op) : bool :=
  match o with
  | Rendered _ => true
  | _ => false
  end.

Lemma step_decoded o s : decoded (state_of (step o s)) = decoded s || is_rendered o.
Proof.
  destruct o; simpl; rewrite ?orb_false_r, ?orb_true_r; try done.
  - by rewrite clear_eq.
  - unfold loader_done. run_img. simpl. by destruct (bool_decide _).
  - unfold element_load. run_M. simpl. by destruct (onload (element s)) as [[]|].
  - unfold element_error. run_M. by destruct (onerror (element s)) as [[]|].
Qed.

(** After a sequence of operations [decoded] holds exactly if it held
    before or a request was rendered in between: nothing resets it,
    [clear] included. *)
Theorem decoded_after_run (ops : list Op) (s : Img) :
  decoded (state_of (run ops s)) = decoded s || existsb is_rendered ops.
Proof.
  revert s. induction ops as [|o ops IH]; intros s; simpl existsb.
  - by rewrite orb_false_r.
  - rewrite run_cons. unfold state_of at 1. simpl.
    by rewrite IH, step_decoded, orb_assoc.
Qed.

(** *** The estimate of the memory in use *)

(** In every reachable state [getBytesRam()] is at least the compressed
    size [bytes] and at most [bytes + bytesUncompressed]. *)
Theorem getBytesRam_bounds (s : Img) :
  reachable s →
  bytes s ≤ getBytesRam s ∧ getBytesRam s ≤ bytes s + bytesUncompressed s.
Proof.
  intros [_ Hb _]%reachable_size_ok. unfold getBytesRam. destruct (decoded s); lia.
Qed.


(** *** The calls of [clear] *)

(** [clear] first calls [URL.revokeObjectURL], then, for each attached
    request in the order of attachment, [request.off] and the event
    "render-request-removed", and last the event "clear"; both events go
    to the listeners that were installed before [clear], which removes
    them only afterwards. *)
Theorem clear_calls_in_order (s : Img) :
  trace_of (clear s) =
    RevokeObjectURL ""
      :: flat_map (λ r, [RequestOff r;
                         Emit "render-request-removed"
                           (listeners_of "render-request-removed" s)])
           (renderRequests s)
      ++ [Emit "clear" (listeners_of "clear" s)].
Proof. by rewrite clear_eq. Qed.


(** *** More examples *)

Lemma unregisterRequest_not_attached_witness :
  unregisterRequest 1%nat new = (tt, new, [RequestOff 1%nat; Emit "render-request-removed" []]).
Proof.
  apply (unregisterRequest_not_attached new 1%nat). apply not_elem_of_nil.
Defined.

Lemma register_unregister_witness :
  renderRequests (state_of (registerRequest 1%nat new)) = [1%nat]
  ∧ state_of (unregisterRequest 1%nat (state_of (registerRequest 1%nat new))) = new.
Proof.
  apply (register_unregister new 1%nat). apply not_elem_of_nil.
Defined.

Lemma registerRequest_attached_witness :
  registerRequest 1%nat (state_of (registerRequest 1%nat new))
  = (tt, state_of (registerRequest 1%nat new),
     [RequestOn 1%nat; Emit "render-request-added" []]).
Proof.
  apply (registerRequest_attached (state_of (registerRequest 1%nat new)) 1%nat).
  apply elem_of_cons. by left.
Defined.

Lemma onLoadEnd_then_browser_witness :
  trace_of (onLoadEnd "blob:2" measured) = [CreateObjectURL 5%nat "blob:2"]
  ∧ bytesUncompressed
      (state_of (element_load 20 30 (state_of (onLoadEnd "blob:2" measured)))) = 2400.
Proof.
  destruct (onLoadEnd_then_browser measured 5%nat "blob:2" 20 30 eq_refl)
    as (Ht & _ & (_ & Hb & _) & _).
  split; [exact Ht|exact Hb].
Defined.

Lemma browser_reports_once_witness :
  trace_of (step ElementError (state_of (step (ElementLoad 10 10) measured))) = [].
Proof.
  apply (browser_reports_once measured (ElementLoad 10 10) ElementError);
    [apply measured_reachable|reflexivity..].
Defined.

Lemma getBytesRam_bounds_witness :
  bytes measured ≤ getBytesRam measured
  ∧ getBytesRam measured ≤ bytes measured + bytesUncompressed measured.
Proof.
  apply (getBytesRam_bounds measured). apply measured_reachable.
Defined.


End Img.
